(** * nwastdlib: the mapping combinators of [dict.py] and the do-notation
    interpreter of [do.py].

    Python values are embedded as a small universe ([value]); a dict is
    the list of its items in insertion order; a set is the list of its
    elements in iteration order.  Functions that can raise return a
    [result]. *)

From Stdlib Require Import ZArith String Ascii List Lia.
From stdpp Require Import base tactics option list strings.

Set Default Proof Using "Type".
Local Open Scope string_scope.
Local Open Scope nat_scope.
Local Open Scope list_scope.

(** * Part I: the embedding *)

(** ** Exceptions *)

Inductive pyexn : Type :=
| ValueError
| RecursionError
| AttributeError.

Inductive result (A : Type) : Type :=
| Ok (a : A)
| Raise (e : pyexn).
Arguments Ok {A} a.
Arguments Raise {A} e.

#[global] Instance result_ret : MRet result := λ A a, Ok a.
#[global] Instance result_bind : MBind result := λ A B f r,
  match r with
  | Ok a => f a
  | Raise e => Raise e
  end.

(** ** The two containers *)

(** Modelled from the spec: the Optional container of [maybe.py], which is
    not among the sources (section 4.1: [Present]/[Absent] and the
    elimination [mapOr]).  The constructor and method names are the ones
    [dict.py] uses and its doctests print. *)
Module Maybe.
Inductive t (A : Type) : Type :=
| Nothing
| Some (a : A).
Arguments Nothing {A}.
Arguments Some {A} a.

(** [m.maybe(default, f)] *)
Definition maybe {A B} (m : t A) (default : B) (f : A → B) : B :=
  match m with
  | Nothing => default
  | Some a => f a
  end.

Definition unit {A} (a : A) : t A := Some a.
End Maybe.

(** Modelled from the spec: the disjoint-branch container of [either.py],
    which is not among the sources (section 4.2: [Left]/[Right], [map],
    [sequence]). *)
Module Either.
Inductive t (L R : Type) : Type :=
| Left (l : L)
| Right (r : R).
Arguments Left {L R} l.
Arguments Right {L R} r.

(** [map(f)]: applies [f] to the [Right] payload only. *)
Definition map {L R R'} (f : R → R') (e : t L R) : t L R' :=
  match e with
  | Left l => Left l
  | Right r => Right (f r)
  end.

(** [sequence(list)]: items in order; the first [Left] is returned at
    once; when all are [Right], [Right] of the payloads in input order. *)
Fixpoint sequence {L R} (es : list (t L R)) : t L (list R) :=
  match es with
  | [] => Right []
  | Left l :: _ => Left l
  | Right r :: es' => map (cons r) (sequence es')
  end.

Definition unit {L R} (r : R) : t L R := Right r.
End Either.

(** ** Python values and dicts *)

Section dict.
Context {K : Type} `{EqDecision K}.

(** The values the combinators inspect: [None], scalars, and dicts (the
    only values for which [isinstance(v, dict)] holds). *)
#[warnings="-register-all"]
Inductive value : Type :=
| VNone
| VInt (z : Z)
| VStr (s : string)
| VDict (d : list (K * value)).

(** [d.get(k)]: the first (and, in a dict, only) item with key [k]. *)
Fixpoint dict_get {V} (d : list (K * V)) (k : K) : option V :=
  match d with
  | [] => None
  | (k', v) :: d' => if decide (k' = k) then Some v else dict_get d' k
  end.

(** [d[k] = v]: an existing key keeps its position, a new key goes last. *)
Fixpoint dict_set {V} (d : list (K * V)) (k : K) (v : V) : list (K * V) :=
  match d with
  | [] => [(k, v)]
  | (k', v') :: d' =>
      if decide (k' = k) then (k', v) :: d' else (k', v') :: dict_set d' k v
  end.

(** [{**d, **e}] with [d] already copied: the items of [e] are stored in
    order. *)
Definition dict_update {V} (d e : list (K * V)) : list (K * V) :=
  fold_left (λ acc kv, dict_set acc kv.1 kv.2) e d.

(** [dict(items)] and the dict comprehension [{k: v for ...}]. *)
Definition dict_of_items {V} (its : list (K * V)) : list (K * V) :=
  dict_update [] its.

(** The invariant of a Python dict: no key occurs twice. *)
Definition uniq_keys {V} (d : list (K * V)) : Prop := NoDup (d.*1).

(** *** filterWithKey, filterByKey *)

(** [{k: v for k, v in d.items() if p(k, v)}] *)
Definition filterWithKey {V} (p : K → V → bool) (d : list (K * V))
  : list (K * V) :=
  dict_of_items (filter (λ kv, p kv.1 kv.2) d).

(** [k in ks] for a set [ks] *)
Definition set_mem (ks : list K) (k : K) : bool := bool_decide (k ∈ ks).

Definition filterByKey {V} (ks : list K) (d : list (K * V)) : list (K * V) :=
  filterWithKey (λ k _, set_mem ks k) d.

(** *** lookup, getByKeys *)

(** Modelled from the spec: [Maybe.of] of [maybe.py] (section 4.1:
    [Present(value)] unless the value is the absent sentinel). *)
Definition Maybe_of (v : value) : Maybe.t value :=
  match v with
  | VNone => Maybe.Nothing
  | _ => Maybe.Some v
  end.

(** [d.get(k, dflt)] *)
Definition dict_get_default (d : list (K * value)) (k : K) (dflt : value)
  : value :=
  match dict_get d k with
  | Some v => v
  | None => dflt
  end.

Definition lookup (k : K) (d : list (K * value)) : Maybe.t value :=
  Maybe_of (dict_get_default d k VNone).

Definition getByKeys (ks : list K) (d : list (K * value))
  : Either.t K (list (K * value)) :=
  let get (k : K) : Either.t K (K * value) :=
    Maybe.maybe (lookup k d) (Either.Left k) (λ v, Either.Right (k, v)) in
  Either.map dict_of_items (Either.sequence (map get ks)).

(** [holds d k]: key [k] is stored in [d] with a value other than [None]. *)
Definition holds (d : list (K * value)) (k : K) : Prop :=
  ∃ v, dict_get d k = Some v ∧ v ≠ VNone.

(** The items [getByKeys] collects when every key holds a value. *)
Definition picked (ks : list K) (d : list (K * value)) : list (K * value) :=
  map (λ k, (k, dict_get_default d k VNone)) ks.

(** *** delete, insert, merge *)

(** [{k: v for k, v in d.items() if k != key}] *)
Definition delete {V} (key : K) (d : list (K * V)) : list (K * V) :=
  dict_of_items (filter (λ kv, kv.1 ≠ key) d).

(** [{**d, key: value}] *)
Definition insert {V} (key : K) (val : V) (d : list (K * V)) : list (K * V) :=
  dict_set (dict_update [] d) key val.

(** [lambda d2: {**d1, **d2}] *)
Definition merge {V} (d1 : list (K * V)) : list (K * V) → list (K * V) :=
  λ d2, dict_update (dict_update [] d1) d2.

(** *** append *)

(** The recursion descends into the values of [d1], so the fixpoint takes
    the first dict wrapped as a [value]; [append_unfold] restates it in
    the shape of the source. *)
Fixpoint append_value (v : value) (d2 : list (K * value)) {struct v}
  : list (K * value) :=
  match v with
  | VDict d1 =>
      let d3 :=
        dict_of_items
          ((fix comp (its : list (K * value)) : list (K * value) :=
              match its with
              | [] => []
              | (k, VDict v1 as v) :: its' =>
                  match dict_get d2 k with
                  | Some (VDict v2) => (k, VDict (append_value v v2)) :: comp its'
                  | _ => comp its'
                  end
              | _ :: its' => comp its'
              end) d1) in
      dict_update (dict_update (dict_update [] d1) d2) d3
  | _ => d2
  end.

Definition append (d1 d2 : list (K * value)) : list (K * value) :=
  append_value (VDict d1) d2.

(** The items of the comprehension [d3] of [append(d1, d2)]: the keys of
    [d1] that are in [d2] with a dict on both sides. *)
Fixpoint both_dicts (d1 d2 : list (K * value)) : list (K * value) :=
  match d1 with
  | [] => []
  | (k, VDict v1) :: its' =>
      match dict_get d2 k with
      | Some (VDict v2) => (k, VDict (append v1 v2)) :: both_dicts its' d2
      | _ => both_dicts its' d2
      end
  | _ :: its' => both_dicts its' d2
  end.

(** Nesting depth: a scalar has depth 0, a dict one more than its deepest
    value. *)
Fixpoint nesting (v : value) : nat :=
  match v with
  | VDict d =>
      S ((fix deepest (its : list (K * value)) : nat :=
            match its with
            | [] => 0
            | (_, v') :: its' => Nat.max (nesting v') (deepest its')
            end) d)
  | _ => 0
  end.

Fixpoint deepest (d : list (K * value)) : nat :=
  match d with
  | [] => 0
  | (_, v) :: d' => Nat.max (nesting v) (deepest d')
  end.

(** The comprehension [d3] when the recursive calls are made by [rec],
    which can raise. *)
Fixpoint both_dicts_with
    (rec : list (K * value) → list (K * value) → result (list (K * value)))
    (d1 d2 : list (K * value)) : result (list (K * value)) :=
  match d1 with
  | [] => Ok []
  | (k, VDict v1) :: its' =>
      match dict_get d2 k with
      | Some (VDict v2) =>
          r ← rec v1 v2;
          rest ← both_dicts_with rec its' d2;
          Ok ((k, VDict r) :: rest)
      | _ => both_dicts_with rec its' d2
      end
  | _ :: its' => both_dicts_with rec its' d2
  end.

(** [append] run on a call stack with room for [frames] nested
    activations of [append]; the activation that finds no room raises
    [RecursionError]. *)
Fixpoint append_frames (frames : nat) (d1 d2 : list (K * value))
  : result (list (K * value)) :=
  match frames with
  | O => Raise RecursionError
  | S n =>
      its ← both_dicts_with (append_frames n) d1 d2;
      Ok (dict_update (dict_update (dict_update [] d1) d2) (dict_of_items its))
  end.

End dict.

Arguments value K : clear implicits.

(** ** Dict objects

    The functions of [dict.py] receive and return references to dict
    objects.  Each of them builds its result with a dict display or a
    comprehension, which allocates a new object; none stores into an
    argument.  The heap maps a reference to the contents of its object. *)

Section objects.
Context {K V : Type} `{EqDecision K}.

Definition ref : Type := nat.
Definition heap : Type := list (list (K * V)).

(** A computation over the heap; [None] when it uses a dangling reference. *)
Definition Py (A : Type) : Type := heap → option (A * heap).

Definition py_bind {A B} (c : Py A) (f : A → Py B) : Py B :=
  λ h, match c h with
       | Some (a, h') => f a h'
       | None => None
       end.

(** Reading the object behind a reference. *)
Definition deref (r : ref) : Py (list (K * V)) :=
  λ h, match h !! r with
       | Some d => Some (d, h)
       | None => None
       end.

(** Allocating a new dict object. *)
Definition new (d : list (K * V)) : Py ref :=
  λ h, Some (length h, h ++ [d]).

Definition filterWithKey_obj (p : K → V → bool) (r : ref) : Py ref :=
  py_bind (deref r) (λ d, new (filterWithKey p d)).

Definition filterByKey_obj (ks : list K) (r : ref) : Py ref :=
  filterWithKey_obj (λ k _, set_mem ks k) r.

Definition delete_obj (key : K) (r : ref) : Py ref :=
  py_bind (deref r) (λ d, new (delete key d)).

Definition insert_obj (key : K) (val : V) (r : ref) : Py ref :=
  py_bind (deref r) (λ d, new (insert key val d)).

(** [c], run in [h], returns a reference that was not in use, the new
    object holds [d'], and every object of [h] is as it was. *)
Definition returns_new (c : Py ref) (h : heap) (d' : list (K * V)) : Prop :=
  ∃ r' h', c h = Some (r', h') ∧ h !! r' = None ∧ h' !! r' = Some d' ∧
           ∀ r d, h !! r = Some d → h' !! r = Some d.

End objects.

(** ** str.partition, str.split *)

(** [s] without its prefix [p], when [s] starts with [p]. *)
Fixpoint strip_prefix (p s : string) : option string :=
  match p, s with
  | EmptyString, _ => Some s
  | String a p', String b s' =>
      if decide (a = b) then strip_prefix p' s' else None
  | String _ _, EmptyString => None
  end.

(** [s.partition(sep)] when [sep] occurs in [s]: the text before its first
    occurrence and the text after it. *)
Fixpoint partition (sep s : string) : option (string * string) :=
  match strip_prefix sep s with
  | Some rest => Some (EmptyString, rest)
  | None =>
      match s with
      | EmptyString => None
      | String c s' =>
          match partition sep s' with
          | Some (before, after) => Some (String c before, after)
          | None => None
          end
      end
  end.

(** [s.split(sep, maxsplit)] for a non-empty [sep]: at most [maxsplit]
    cuts, at the occurrences of [sep] from the left. *)
Fixpoint split_max (maxsplit : nat) (s sep : string) : list string :=
  match maxsplit with
  | O => [s]
  | S n =>
      match partition sep s with
      | Some (before, after) => before :: split_max n after sep
      | None => [s]
      end
  end.

(** [s.split(sep)]: an empty separator is refused; otherwise there is no
    limit on the cuts, and [length s] cuts are never all used. *)
Definition split (s sep : string) : result (list string) :=
  if decide (sep = EmptyString) then Raise ValueError
  else Ok (split_max (String.length s) s sep).

(** [sub in s] *)
Fixpoint contains (sub s : string) : bool :=
  match strip_prefix sub s with
  | Some _ => true
  | None =>
      match s with
      | EmptyString => false
      | String _ s' => contains sub s'
      end
  end.

(** ** unflatten *)

(** The inner function of [unflatten]; [h, *t = parts] raises on an empty
    list. *)
Fixpoint unflatten1 (parts : list string) (v : value string)
  : result (list (string * value string)) :=
  match parts with
  | [] => Raise ValueError
  | h :: t =>
      if decide (length t = 0) then Ok [(h, v)]
      else inner ← unflatten1 t v; Ok [(h, VDict inner)]
  end.

(** [reduce(append, (unflatten1(k.split(sep), v) for (k, v) in d.items()), {})] *)
Definition unflatten (d : list (string * value string)) (sep : string)
  : result (list (string * value string)) :=
  foldl (λ acc kv,
           a ← acc;
           parts ← split kv.1 sep;
           one ← unflatten1 parts kv.2;
           Ok (append a one))
        (Ok []) d.

(** [unflatten1] and [unflatten] on a call stack that leaves room for
    [frames] nested activations of [unflatten1], and of [append], below
    [unflatten]; the activation that finds no room raises
    [RecursionError]. *)
Fixpoint unflatten1_frames (frames : nat) (parts : list string)
    (v : value string) : result (list (string * value string)) :=
  match frames with
  | O => Raise RecursionError
  | S n =>
      match parts with
      | [] => Raise ValueError
      | h :: t =>
          if decide (length t = 0) then Ok [(h, v)]
          else inner ← unflatten1_frames n t v; Ok [(h, VDict inner)]
      end
  end.

Definition unflatten_frames (frames : nat) (d : list (string * value string))
    (sep : string) : result (list (string * value string)) :=
  foldl (λ acc kv,
           a ← acc;
           parts ← split kv.1 sep;
           one ← unflatten1_frames frames parts kv.2;
           append_frames frames a one)
        (Ok []) d.

(** What the spec words say of [unflattenKeys]: a key that contains the
    separator contributes the singleton nested mapping that mirrors its
    path, any other key a top-level leaf; the contributions are folded
    with the deep merge from the empty mapping, in iteration order. *)
Fixpoint path_singleton (h : string) (t : list string) (leaf : value string)
  : list (string * value string) :=
  match t with
  | [] => [(h, leaf)]
  | h' :: t' => [(h, VDict (path_singleton h' t' leaf))]
  end.

Definition contribution (sep k : string) (v : value string)
  : list (string * value string) :=
  if contains sep k then
    match split_max (String.length k) k sep with
    | h :: t => path_singleton h t v
    | [] => []
    end
  else [(k, v)].

Definition unflattenKeys (d : list (string * value string)) (sep : string)
  : list (string * value string) :=
  foldl (λ acc kv, append acc (contribution sep kv.1 kv.2)) [] d.

(** ** The do-notation interpreter of [do.py] *)

Module Do.
Section interp.
(** [X]: the plain values sent into the generator; [M]: the container;
    [Ev]: the observable side effects of the program's steps; [E]: the
    exceptions a step can raise besides the two of the protocol. *)
Context {X M Ev E : Type}.

(** An object handed back by the interpreter: a plain value or a container. *)
Inductive obj : Type :=
| Plain (x : X)
| Cont (m : M).

(** The body of a generator function, from its current position:
    [a = yield m] followed by the rest, [return r], [mreturn(v)], a step
    that raises, or a step with a side effect. *)
Inductive prog : Type :=
| Yield (m : M) (k : X → prog)
| Return (r : obj)
| MReturn (v : X)
| Raises (e : E)
| Effect (ev : Ev) (p : prog).

(** The generator object [it]. *)
Inductive gen : Type :=
| Unstarted (body : prog)
| Suspended (k : X → prog)
| Exhausted.

(** What a run can change: the generator object and the trace of side
    effects. *)
Record world : Type := World { it : gen; log : list Ev }.

Inductive exn : Type :=
| StopIteration (value : obj)
| ReturnMonadic (value : X)
| Other (e : E).

(** [Overflow]: the call stack is used up. *)
Inductive outcome (A : Type) : Type :=
| Done (a : A) (w : world)
| Raised (e : exn) (w : world)
| Overflow.
Arguments Done {A} a w.
Arguments Raised {A} e w.
Arguments Overflow {A}.

(** The capability the interpreter needs of a container: the success
    constructor and [flatmap], whose argument here is the interpreter's
    own [send], a function that acts on the world.  [payload] and the two
    laws say what the spec says of both containers: [flatmap] calls its
    argument on the payload of the success state and returns the
    short-circuit state as it is, without calling it. *)
Class Container : Type := {
  unit : X → M;
  flatmap : M → (X → world → outcome obj) → world → outcome obj;
  payload : M → option X;
  payload_unit : ∀ x, payload (unit x) = Some x;
  flatmap_payload : ∀ m f w,
    flatmap m f w =
      match payload m with
      | Some x => f x w
      | None => Done (Cont m) w
      end
}.

Context `{Container}.

(** Python's [None]. *)
Variable none : X.

(** The generator runs from [p] to its next yield, return or raise. *)
Fixpoint resume (p : prog) (lg : list Ev) : outcome M :=
  match p with
  | Effect ev p' => resume p' (lg ++ [ev])
  | Yield m k => Done m (World (Suspended k) lg)
  | Return r => Raised (StopIteration r) (World Exhausted lg)
  | MReturn v => Raised (ReturnMonadic v) (World Exhausted lg)
  | Raises e => Raised (Other e) (World Exhausted lg)
  end.

(** [it.send(val)]; the first call, [send(None)], starts the body. *)
Definition it_send (val : X) (w : world) : outcome M :=
  match it w with
  | Unstarted body => resume body (log w)
  | Suspended k => resume (k val) (log w)
  | Exhausted => Raised (StopIteration (Plain none)) w
  end.

(** The two [except] clauses of [send]: [StopIteration] gives the value
    it carries, [ReturnMonadic] gives [M.unit] of the value it carries;
    anything else passes. *)
Definition except_clauses (o : outcome obj) : outcome obj :=
  match o with
  | Raised (StopIteration value) w => Done value w
  | Raised (ReturnMonadic value) w => Done (Cont (unit value)) w
  | _ => o
  end.

(** The inner [send] of [run]: [it.send(val).flatmap(send)] under the two
    [except] clauses.  [depth] is the room left on the call stack, each
    yield nesting one more call of [send]. *)
Fixpoint send (depth : nat) (val : X) (w : world) : outcome obj :=
  match depth with
  | O => Overflow
  | S n =>
      except_clauses
        match it_send val w with
        | Done m w1 => flatmap m (send n) w1
        | Raised e w1 => Raised e w1
        | Overflow => Overflow
        end
  end.

(** [do(M)(f)] applied to the arguments [args], with [f] a generator
    function: the call [f(args)] of [run] creates the generator and runs
    none of the body.  [run], below, takes any function. *)
Definition do {Args : Type} (depth : nat) (f : Args → prog) (args : Args)
  : outcome obj :=
  send depth none (World (Unstarted (f args)) []).

(** A function with no [yield] in its body is not a generator function:
    calling it runs the body.  The body, from its current position: a
    step with a side effect, [return r] of an object that is no
    generator, [return] of a generator made elsewhere, [mreturn(v)], or a
    step that raises. *)
Inductive plain : Type :=
| PEffect (ev : Ev) (p : plain)
| PReturn (r : obj)
| PReturnGenerator (body : prog)
| PMReturn (v : X)
| PRaises (e : E).

(** The functions that [do(M)] can be given to decorate. *)
Inductive pyfun (Args : Type) : Type :=
| GeneratorFunction (body : Args → prog)
| PlainFunction (body : Args → plain).
Arguments GeneratorFunction {Args} body.
Arguments PlainFunction {Args} body.

(** The exception of [it.send] when [it] has no such attribute. *)
Variable attribute_error : E.

(** [it = f(args)] for a function with no [yield], then [send(None)].
    The body runs at the call, which is outside the [try] of [send]: what
    it raises, [ReturnMonadic] included, goes to the caller of [run].
    When the body returns an object that is no generator, [it.send] raises
    inside [send], and neither [except] clause takes it.  No generator is
    left to resume in these cases, which the world shows as [Exhausted]. *)
Fixpoint run_plain (depth : nat) (p : plain) (lg : list Ev) : outcome obj :=
  match p with
  | PEffect ev p' => run_plain depth p' (lg ++ [ev])
  | PMReturn v => Raised (ReturnMonadic v) (World Exhausted lg)
  | PRaises e => Raised (Other e) (World Exhausted lg)
  | PReturnGenerator body => send depth none (World (Unstarted body) lg)
  | PReturn r =>
      match depth with
      | O => Overflow
      | S _ => Raised (Other attribute_error) (World Exhausted lg)
      end
  end.

(** The [run] of [do(M)(f)]: [it = f(args)] and then [send(None)]. *)
Definition run {Args : Type} (depth : nat) (f : pyfun Args) (args : Args)
  : outcome obj :=
  match f with
  | GeneratorFunction body => do depth body args
  | PlainFunction body => run_plain depth (body args) []
  end.

(** [reaches p evs n q]: resumed at [p] with the payload of every
    container it yields, the program performs the side effects [evs],
    passes [n] yields and arrives at [q]. *)
Inductive reaches : prog → list Ev → nat → prog → Prop :=
| reaches_here p : reaches p [] 0 p
| reaches_effect ev p evs n q :
    reaches p evs n q → reaches (Effect ev p) (ev :: evs) n q
| reaches_yield m k x evs n q :
    payload m = Some x → reaches (k x) evs n q →
    reaches (Yield m k) evs (S n) q.


End interp.

Arguments obj X M : clear implicits.
Arguments prog X M Ev E : clear implicits.
Arguments plain X M Ev E : clear implicits.
Arguments pyfun X M Ev E Args : clear implicits.
Arguments GeneratorFunction {X M Ev E Args} body.
Arguments PlainFunction {X M Ev E Args} body.
Arguments world X M Ev E : clear implicits.
Arguments outcome X M Ev E A : clear implicits.
Arguments Done {X M Ev E A} a w.
Arguments Raised {X M Ev E A} e w.
Arguments Overflow {X M Ev E A}.
Arguments Container X M Ev E : clear implicits.

(** Modelled from the spec: [unit] and [flatmap] of the Optional container
    of [maybe.py] (section 4.1: [Present(v) -> f(v)]; [Absent -> Absent]). *)
#[global, refine] Instance maybe_container {X Ev E}
  : Container X (Maybe.t X) Ev E := {|
  unit := Maybe.unit;
  flatmap m f w :=
    match m with
    | Maybe.Some x => f x w
    | Maybe.Nothing => Done (Cont Maybe.Nothing) w
    end;
  payload m :=
    match m with
    | Maybe.Some x => Some x
    | Maybe.Nothing => None
    end
|}.
Proof.
  - done.
  - by intros [|x] f w.
Defined.

(** Modelled from the spec: [unit] and [flatmap] of the disjoint-branch
    container of [either.py] (section 4.2: [flatMap] is invoked only on
    [Right]; on [Left] the same [Left] is returned). *)
#[global, refine] Instance either_container {L X Ev E}
  : Container X (Either.t L X) Ev E := {|
  unit := Either.unit;
  flatmap m f w :=
    match m with
    | Either.Right x => f x w
    | Either.Left l => Done (Cont (Either.Left l)) w
    end;
  payload m :=
    match m with
    | Either.Right x => Some x
    | Either.Left _ => None
    end
|}.
Proof.
  - done.
  - by intros [l|x] f w.
Defined.

End Do.

(** ** Example programs *)

(** Do-blocks over the Optional container, with Python values as plain
    values, the names of the steps as side effects. *)
Abbreviation maybe_prog :=
  (Do.prog (value string) (Maybe.t (value string)) string pyexn).

(** The same where the plain values are strings or [None]. *)
Abbreviation str_prog :=
  (Do.prog (option string) (Maybe.t (option string)) string pyexn).

(** [format(a, '')] for a string or [None], as an f-string field does. *)
Definition py_format (a : option string) : string :=
  match a with
  | Some s => s
  | None => "None"
  end.

(** [f"{a}, {b}!"] *)
Definition greeting (a b : option string) : option string :=
  Some (py_format a +:+ ", " +:+ py_format b +:+ "!").

(** The example of the module docstring:
    [a = yield msg; b = yield name; mreturn(f"{a}, {b}!")]. *)
Definition mconcat (args : Maybe.t (option string) * Maybe.t (option string))
  : str_prog :=
  Do.Yield args.1 (λ a, Do.Yield args.2 (λ b, Do.MReturn (greeting a b))).

(** Three steps that each record their name before they yield; the last
    one returns early. *)
Definition three_steps (args : Maybe.t (option string) * Maybe.t (option string))
  : str_prog :=
  Do.Effect "first"
    (Do.Yield args.1 (λ a,
       Do.Effect "second"
         (Do.Yield args.2 (λ b,
            Do.Effect "third" (Do.MReturn (greeting a b)))))).



(** ** Notions used to state further properties *)

Section observers.
Context {K : Type} `{EqDecision K}.

(** [isinstance(v, dict)] *)
Definition is_dict (v : value K) : bool :=
  match v with
  | VDict _ => true
  | _ => false
  end.

(** The dict invariant at every depth: no dict inside [v] has a key
    twice. *)
Fixpoint wf_value (v : value K) : Prop :=
  match v with
  | VDict d =>
      NoDup (d.*1) ∧
      (fix all (its : list (K * value K)) : Prop :=
         match its with
         | [] => True
         | (_, v') :: its' => wf_value v' ∧ all its'
         end) d
  | _ => True
  end.

(** [v[k1][k2]...[kn]] for the path [k1; ...; kn], when every step finds
    a dict that has the key. *)
Fixpoint get_path (path : list K) (v : value K) : option (value K) :=
  match path with
  | [] => Some v
  | k :: path' =>
      match v with
      | VDict d =>
          match dict_get d k with
          | Some v' => get_path path' v'
          | None => None
          end
      | _ => None
      end
  end.

End observers.

(** * Part II: properties *)

Section dict_facts.
Context {K : Type} `{EqDecision K}.
Implicit Types (d : list (K * value K)) (k : K).

(** *** Basic facts about the dict primitives *)

Lemma dict_get_None {V} (d : list (K * V)) k :
  dict_get d k = None ↔ k ∉ d.*1.
Proof.
  induction d as [|[k' v] d IH]; simpl.
  - split; [intros _; apply not_elem_of_nil | done].
  - rewrite not_elem_of_cons. destruct (decide (k' = k)) as [->|Hne].
    + split; [done | intros [? _]; done].
    + rewrite IH. split; [intros ?; split; [congruence | done] | tauto].
Qed.

Lemma dict_get_Some_elem {V} (d : list (K * V)) k v :
  dict_get d k = Some v → (k, v) ∈ d.
Proof.
  induction d as [|[k' v'] d IH]; simpl; [done|].
  destruct (decide (k' = k)) as [->|Hne].
  - intros [= ->]. apply list_elem_of_here.
  - intros Hg. apply list_elem_of_further. auto.
Qed.

Lemma dict_get_elem_uniq {V} (d : list (K * V)) k v :
  uniq_keys d → (k, v) ∈ d → dict_get d k = Some v.
Proof.
  unfold uniq_keys. induction d as [|[k' v'] d IH]; simpl.
  - intros _ Hin. by apply elem_of_nil in Hin.
  - rewrite NoDup_cons. intros [Hnotin Hnd] Hin.
    apply elem_of_cons in Hin as [[= -> ->]|Hin].
    + by rewrite decide_True.
    + rewrite decide_False; [by apply IH|].
      intros ->. apply Hnotin. apply list_elem_of_fmap. by exists (k, v).
Qed.

Lemma dict_get_set {V} (d : list (K * V)) k v k' :
  dict_get (dict_set d k v) k' =
    if decide (k = k') then Some v else dict_get d k'.
Proof.
  induction d as [|[k0 v0] d IH]; simpl.
  - done.
  - destruct (decide (k0 = k)) as [->|Hne]; simpl.
    + by destruct (decide (k = k')).
    + rewrite IH. destruct (decide (k0 = k')) as [->|]; [|done].
      by rewrite decide_False.
Qed.

Lemma dict_set_keys_notin {V} (d : list (K * V)) k v :
  k ∉ d.*1 → dict_set d k v = d ++ [(k, v)].
Proof.
  induction d as [|[k0 v0] d IH]; simpl; [done|].
  rewrite not_elem_of_cons. intros [Hne Hnotin].
  rewrite decide_False; [|done]. by rewrite IH.
Qed.

Lemma dict_update_app_uniq {V} (d e : list (K * V)) :
  uniq_keys (d ++ e) → dict_update d e = d ++ e.
Proof.
  unfold uniq_keys, dict_update.
  revert d. induction e as [|[k v] e IH]; intros d Hnd; simpl.
  - by rewrite app_nil_r.
  - change ((k, v) :: e) with ([(k, v)] ++ e) in Hnd |- *.
    rewrite (assoc_L (++) d [(k, v)] e) in Hnd |- *.
    rewrite <- IH by done. f_equal. apply dict_set_keys_notin.
    rewrite !fmap_app in Hnd. apply NoDup_app in Hnd as [Hnd _].
    apply NoDup_app in Hnd as (_ & Hdis & _).
    intros Hin. apply (Hdis _ Hin). simpl. apply list_elem_of_here.
Qed.

Lemma dict_of_items_uniq {V} (d : list (K * V)) :
  uniq_keys d → dict_of_items d = d.
Proof. intros Hnd. unfold dict_of_items. by rewrite dict_update_app_uniq. Qed.

Lemma dict_get_update {V} (d e : list (K * V)) k :
  uniq_keys e →
  dict_get (dict_update d e) k =
    match dict_get e k with
    | Some v => Some v
    | None => dict_get d k
    end.
Proof.
  unfold uniq_keys, dict_update.
  revert d. induction e as [|[k0 v0] e IH]; intros d Hnd; simpl; [done|].
  apply NoDup_cons in Hnd as [Hnotin Hnd]. rewrite IH by done.
  rewrite dict_get_set. simpl in Hnotin.
  destruct (decide (k0 = k)) as [->|Hne]; [|done].
  apply dict_get_None in Hnotin. by rewrite Hnotin.
Qed.

Lemma uniq_keys_filter {V} (P : K * V → Prop) `{∀ x, Decision (P x)}
    (d : list (K * V)) :
  uniq_keys d → uniq_keys (filter P d).
Proof.
  unfold uniq_keys. induction d as [|[k v] d IH]; simpl; [done|].
  rewrite NoDup_cons. intros [Hnotin Hnd]. rewrite filter_cons.
  destruct (decide (P (k, v))); [|by apply IH].
  simpl. apply NoDup_cons. split; [|by apply IH].
  intros Hin. apply Hnotin. apply list_elem_of_fmap in Hin as (kv & -> & Hin).
  apply list_elem_of_fmap. exists kv. split; [done|].
  by apply list_elem_of_filter in Hin as [_ ?].
Qed.

Lemma dict_get_filter {V} (P : K * V → Prop) `{∀ x, Decision (P x)}
    (d : list (K * V)) k :
  uniq_keys d →
  dict_get (filter P d) k =
    match dict_get d k with
    | Some v => if decide (P (k, v)) then Some v else None
    | None => None
    end.
Proof.
  unfold uniq_keys. induction d as [|[k0 v0] d IH]; simpl; [done|].
  rewrite NoDup_cons. intros [Hnotin Hnd]. rewrite filter_cons.
  destruct (decide (k0 = k)) as [->|Hne].
  - destruct (decide (P (k, v0))); simpl.
    + by rewrite decide_True.
    + rewrite IH by done. apply dict_get_None in Hnotin. by rewrite Hnotin.
  - destruct (decide (P (k0, v0))); simpl.
    + rewrite decide_False by done. by apply IH.
    + by apply IH.
Qed.

(** *** lookup and getByKeys *)

Lemma lookup_holds d k v :
  dict_get d k = Some v → v ≠ VNone → lookup k d = Maybe.Some v.
Proof.
  intros Hg Hv. unfold lookup, dict_get_default. rewrite Hg.
  by destruct v.
Qed.

Lemma lookup_not_holds d k : ¬ holds d k → lookup k d = Maybe.Nothing.
Proof.
  intros Hn. unfold lookup, dict_get_default.
  destruct (dict_get d k) as [v|] eqn:Hg; [|done].
  destruct v; try done; exfalso; apply Hn; eexists; split; done.
Qed.

Lemma getByKeys_Left ks1 k ks2 d :
  Forall (holds d) ks1 → ¬ holds d k →
  getByKeys (ks1 ++ k :: ks2) d = Either.Left k.
Proof.
  intros Hall Hk. unfold getByKeys.
  induction Hall as [|k0 ks1 (v & Hg & Hv) _ IH]; simpl.
  - by rewrite (lookup_not_holds _ _ Hk).
  - rewrite (lookup_holds _ _ _ Hg Hv). simpl.
    destruct (Either.sequence _); simpl in *; congruence.
Qed.

Lemma getByKeys_Right ks d :
  Forall (holds d) ks →
  getByKeys ks d = Either.Right (dict_of_items (picked ks d)).
Proof.
  intros Hall. unfold getByKeys.
  assert (Either.sequence
            (map (λ k, Maybe.maybe (lookup k d) (Either.Left k)
                         (λ v, Either.Right (k, v))) ks)
          = Either.Right (picked ks d)) as ->; [|done].
  induction Hall as [|k0 ks (v & Hg & Hv) _ IH]; simpl; [done|].
  rewrite (lookup_holds _ _ _ Hg Hv). simpl. rewrite IH. simpl.
  unfold dict_get_default. by rewrite Hg.
Qed.

Lemma dict_get_update_tabulate {V} (f : K → V) ks (acc : list (K * V)) k :
  dict_get (dict_update acc (map (λ k, (k, f k)) ks)) k =
    if decide (k ∈ ks) then Some (f k) else dict_get acc k.
Proof.
  unfold dict_update. revert acc.
  induction ks as [|k0 ks IH]; intros acc; cbn [map fold_left fst snd].
  - rewrite decide_False; [done | apply not_elem_of_nil].
  - rewrite IH. rewrite dict_get_set.
    destruct (decide (k ∈ ks)) as [Hin|Hnotin].
    + rewrite decide_True; [done | by apply list_elem_of_further].
    + destruct (decide (k0 = k)) as [->|Hne].
      * rewrite decide_True; [done | apply list_elem_of_here].
      * rewrite decide_False; [done|].
        rewrite elem_of_cons. intros [->|?]; done.
Qed.

Lemma dict_get_picked ks d k :
  Forall (holds d) ks →
  dict_get (dict_of_items (picked ks d)) k =
    if decide (k ∈ ks) then dict_get d k else None.
Proof.
  intros Hall. unfold dict_of_items, picked.
  rewrite dict_get_update_tabulate. destruct (decide (k ∈ ks)) as [Hin|]; [|done].
  rewrite Forall_forall in Hall. destruct (Hall _ Hin) as (v & Hg & _).
  unfold dict_get_default. by rewrite Hg.
Qed.

Lemma dict_set_keys {V} (d : list (K * V)) k v :
  (dict_set d k v).*1 = if decide (k ∈ d.*1) then d.*1 else d.*1 ++ [k].
Proof.
  induction d as [|[k0 v0] d IH]; cbn [dict_set fmap list_fmap fst].
  - rewrite decide_False; [done | apply not_elem_of_nil].
  - destruct (decide (k0 = k)) as [->|Hne]; cbn [fmap list_fmap fst].
    + rewrite decide_True; [done | apply list_elem_of_here].
    + rewrite IH. destruct (decide (k ∈ d.*1)) as [Hin|Hnotin].
      * rewrite decide_True; [done | by apply list_elem_of_further].
      * rewrite decide_False; [done|].
        rewrite elem_of_cons. intros [->|?]; done.
Qed.

Lemma uniq_keys_set {V} (d : list (K * V)) k v :
  uniq_keys d → uniq_keys (dict_set d k v).
Proof.
  unfold uniq_keys. rewrite dict_set_keys. intros Hnd.
  destruct (decide (k ∈ d.*1)); [done|].
  apply NoDup_app. split_and!; [done | | apply NoDup_singleton].
  intros x Hx Hk. apply list_elem_of_singleton in Hk as ->. done.
Qed.

Lemma uniq_keys_update {V} (d e : list (K * V)) :
  uniq_keys d → uniq_keys (dict_update d e).
Proof.
  unfold dict_update. revert d.
  induction e as [|[k v] e IH]; intros d Hnd; simpl; [done|].
  apply IH. by apply uniq_keys_set.
Qed.

Lemma uniq_keys_nil {V} : uniq_keys ([] : list (K * V)).
Proof. apply NoDup_nil_2. Qed.

Lemma holds_dec d k : holds d k ∨ ¬ holds d k.
Proof.
  unfold holds. destruct (dict_get d k) as [v|]; [|right; by intros (? & ? & ?)].
  destruct v; try (left; eexists; split; done).
  right. intros (? & [= <-] & ?). done.
Qed.

Lemma first_not_holds d (ks : list K) k :
  k ∈ ks → ¬ holds d k →
  ∃ ks1 k' ks2, ks = ks1 ++ k' :: ks2 ∧ Forall (holds d) ks1 ∧ ¬ holds d k'.
Proof.
  induction ks as [|k0 ks IH]; intros Hin Hk.
  - by apply elem_of_nil in Hin.
  - destruct (holds_dec d k0) as [H0|H0].
    + apply elem_of_cons in Hin as [->|Hin]; [done|].
      destruct (IH Hin Hk) as (ks1 & k' & ks2 & -> & Hall & Hk').
      exists (k0 :: ks1), k', ks2. split_and!; [done | by constructor | done].
    + exists [], k0, ks. split_and!; [done | constructor | done].
Qed.

End dict_facts.

(** ** filterWithKey, filterByKey, delete, insert *)

Section pure_combinators.
Context {K V : Type} `{EqDecision K}.
Implicit Types (d : list (K * V)) (h : @heap K V) (k : K).

Lemma returns_new_alloc (f : list (K * V) → list (K * V)) h (r : ref) d :
  h !! r = Some d →
  returns_new (py_bind (deref r) (λ d0, new (f d0))) h (f d).
Proof.
  intros Hr. exists (length h), (h ++ [f d]).
  unfold py_bind, deref, new. rewrite Hr. unfold ref, heap in *. split_and!.
  - done.
  - by apply lookup_ge_None_2.
  - rewrite lookup_app_r by done. by rewrite Nat.sub_diag.
  - intros r0 d0 Hr0. rewrite lookup_app_l; [done|]. by eapply lookup_lt_Some.
Qed.

Lemma filterWithKey_filter (p : K → V → bool) d :
  uniq_keys d → filterWithKey p d = filter (λ kv, p kv.1 kv.2) d.
Proof.
  intros Hnd. unfold filterWithKey.
  by rewrite dict_of_items_uniq by by apply uniq_keys_filter.
Qed.

Lemma delete_filter key d :
  uniq_keys d → delete key d = filter (λ kv, kv.1 ≠ key) d.
Proof.
  intros Hnd. unfold delete.
  by rewrite dict_of_items_uniq by by apply uniq_keys_filter.
Qed.

Lemma insert_set key val d :
  uniq_keys d → insert key val d = dict_set d key val.
Proof.
  intros Hnd. unfold insert.
  by rewrite (dict_update_app_uniq [] d) by done.
Qed.

(** Claim C8.  [filterWithKey(p, d)] returns a new dict object and leaves
    every existing object, [d] included, as it was; the new dict holds
    exactly the items of [d] that satisfy [p], in the order of [d]; and
    [filterByKey(ks, d)] is [filterWithKey] with the predicate "the key
    is in [ks]". *)
Theorem filterWithKey_spec (p : K → V → bool) (ks : list K) h (r : ref) d :
  h !! r = Some d → uniq_keys d →
  returns_new (filterWithKey_obj p r) h (filterWithKey p d)
  ∧ filterWithKey p d = filter (λ kv, p kv.1 kv.2) d
  ∧ (∀ k v, (k, v) ∈ filterWithKey p d ↔ (k, v) ∈ d ∧ p k v = true)
  ∧ uniq_keys (filterWithKey p d)
  ∧ filterByKey_obj ks r h = filterWithKey_obj (λ k _, bool_decide (k ∈ ks)) r h
  ∧ filterByKey ks d = filterWithKey (λ k _, bool_decide (k ∈ ks)) d.
Proof.
  intros Hr Hnd. split_and!.
  - by apply (returns_new_alloc (filterWithKey p)).
  - by apply filterWithKey_filter.
  - intros k v. rewrite filterWithKey_filter by done.
    rewrite list_elem_of_filter. simpl. rewrite Is_true_true. tauto.
  - rewrite filterWithKey_filter by done. by apply uniq_keys_filter.
  - done.
  - done.
Qed.

(** Claim C9.  [delete(k, d)] and [insert(k, v, d)] each return a new
    dict object and leave every existing object, [d] included, as it was;
    the dict of [insert] maps [k] to [v] and agrees with [d] on every
    other key; the dict of [delete] holds exactly the items of [d] whose
    key is not [k]. *)
Theorem delete_insert_spec (key : K) (val : V) h (r : ref) d :
  h !! r = Some d → uniq_keys d →
  returns_new (delete_obj key r) h (delete key d)
  ∧ returns_new (insert_obj key val r) h (insert key val d)
  ∧ (∀ k, dict_get (insert key val d) k =
            if decide (k = key) then Some val else dict_get d k)
  ∧ (∀ k v, (k, v) ∈ delete key d ↔ (k, v) ∈ d ∧ k ≠ key)
  ∧ delete key d = filter (λ kv, kv.1 ≠ key) d
  ∧ uniq_keys (insert key val d) ∧ uniq_keys (delete key d).
Proof.
  intros Hr Hnd. split_and!.
  - by apply (returns_new_alloc (delete key)).
  - by apply (returns_new_alloc (insert key val)).
  - intros k. rewrite insert_set by done. rewrite dict_get_set.
    destruct (decide (key = k)) as [->|Hne].
    + by rewrite decide_True.
    + by rewrite decide_False.
  - intros k v. rewrite delete_filter by done.
    rewrite list_elem_of_filter. simpl. tauto.
  - by apply delete_filter.
  - rewrite insert_set by done. by apply uniq_keys_set.
  - rewrite delete_filter by done. by apply uniq_keys_filter.
Qed.

End pure_combinators.

(** The doctests of [filterWithKey], [filterByKey], [delete], [insert] and
    [merge]. *)
Example doctest_filterWithKey :
  filterWithKey (λ k _, bool_decide (k = "a")) [("a", 1%Z); ("b", 2%Z)]
  = [("a", 1%Z)].
Proof. reflexivity. Qed.

Example doctest_filterByKey :
  filterByKey ["a"] [("a", 1%Z); ("b", 2%Z)] = [("a", 1%Z)].
Proof. reflexivity. Qed.

Example doctest_delete :
  delete "a" [("a", 1%Z); ("b", 2%Z)] = [("b", 2%Z)]
  ∧ delete "c" [("a", 1%Z); ("b", 2%Z)] = [("a", 1%Z); ("b", 2%Z)].
Proof. split; reflexivity. Qed.

Example doctest_insert :
  insert "b" 2%Z [("a", 1%Z)] = [("a", 1%Z); ("b", 2%Z)]
  ∧ insert "a" 2%Z [("a", 1%Z)] = [("a", 2%Z)].
Proof. split; reflexivity. Qed.

Example doctest_merge :
  merge [("a", 1%Z)] [("b", 2%Z)] = [("a", 1%Z); ("b", 2%Z)]
  ∧ merge [("a", 1%Z)] [("a", 2%Z)] = [("a", 2%Z)].
Proof. split; reflexivity. Qed.

Lemma filterWithKey_spec_witness :
  let d := [("a", 1%Z); ("b", 2%Z)] in
  uniq_keys d
  ∧ returns_new (filterWithKey_obj (λ k _, bool_decide (k = "a")) 0) [d]
      [("a", 1%Z)]
  ∧ filterByKey ["a"] d = [("a", 1%Z)].
Proof.
  assert (Hnd : uniq_keys [("a", 1%Z); ("b", 2%Z)]) by (by compute_done).
  split; [exact Hnd|].
  destruct (filterWithKey_spec (λ k _, bool_decide (k = "a")) ["a"]
              [[("a", 1%Z); ("b", 2%Z)]] 0 _ eq_refl Hnd)
    as (Hnew & _ & _ & _ & _ & Hby).
  split; [exact Hnew | reflexivity].
Defined.

Lemma delete_insert_spec_witness :
  let d := [("a", 1%Z); ("b", 2%Z)] in
  uniq_keys d
  ∧ returns_new (delete_obj "a" 0) [d] [("b", 2%Z)]
  ∧ returns_new (insert_obj "a" 5%Z 0) [d] [("a", 5%Z); ("b", 2%Z)].
Proof.
  assert (Hnd : uniq_keys [("a", 1%Z); ("b", 2%Z)]) by (by compute_done).
  split; [exact Hnd|].
  destruct (delete_insert_spec "a" 5%Z [[("a", 1%Z); ("b", 2%Z)]] 0 _
              eq_refl Hnd) as (Hdel & Hins & _).
  split; [exact Hdel | exact Hins].
Defined.

(** ** lookup, getByKeys *)

Section getByKeys_facts.
Context {K : Type} `{EqDecision K}.
Implicit Types (d : list (K * value K)) (k : K) (ks : list K).

(** Claim C1, as amended.  [getByKeys(ks, d)] returns [Left] of the first
    key, in the iteration order of [ks], that is missing from [d] or
    stored with the value [None], when there is such a key; when every
    key of [ks] is stored with a value other than [None], it returns
    [Right] of the sub-mapping of [d] restricted to exactly the keys of
    [ks]. *)
Theorem getByKeys_spec ks d :
  (∀ ks1 k ks2,
      ks = ks1 ++ k :: ks2 → Forall (holds d) ks1 → ¬ holds d k →
      getByKeys ks d = Either.Left k)
  ∧ (Forall (holds d) ks →
     ∃ sub, getByKeys ks d = Either.Right sub ∧ uniq_keys sub ∧
            ∀ k, dict_get sub k = if decide (k ∈ ks) then dict_get d k else None).
Proof.
  split.
  - intros ks1 k ks2 -> Hall Hk. by apply getByKeys_Left.
  - intros Hall. exists (dict_of_items (picked ks d)). split_and!.
    + by apply getByKeys_Right.
    + apply uniq_keys_update, uniq_keys_nil.
    + intros k. by apply dict_get_picked.
Qed.

(** Claim C10, as amended.  A key [k] stored with the value [None] looks
    to [lookup] like a missing key: the result is [Nothing] either way.
    Hence [getByKeys(ks, d)] with [k] in [ks] returns a [Left]: [Left(k)]
    when every key before [k] in the iteration order of [ks] is stored
    with a value other than [None], and otherwise [Left] of the first key
    that is missing or stored with [None]. *)
Theorem lookup_None_value d k :
  dict_get d k = Some VNone →
  lookup k d = Maybe.Nothing
  ∧ (∀ d', dict_get d' k = None → lookup k d' = lookup k d)
  ∧ (∀ ks1 ks2, Forall (holds d) ks1 →
                getByKeys (ks1 ++ k :: ks2) d = Either.Left k)
  ∧ (∀ ks, k ∈ ks →
           ∃ ks1 k' ks2, ks = ks1 ++ k' :: ks2 ∧ Forall (holds d) ks1 ∧
                         ¬ holds d k' ∧ getByKeys ks d = Either.Left k').
Proof.
  intros Hg.
  assert (Hk : ¬ holds d k).
  { intros (v & Hv & Hne). rewrite Hg in Hv. by injection Hv as <-. }
  split_and!.
  - by apply lookup_not_holds.
  - intros d' Hg'. rewrite !lookup_not_holds; [done | done |].
    intros (v & Hv & _). by rewrite Hg' in Hv.
  - intros ks1 ks2 Hall. by apply getByKeys_Left.
  - intros ks Hin.
    destruct (first_not_holds d ks k Hin Hk) as (ks1 & k' & ks2 & -> & Hall & Hk').
    exists ks1, k', ks2. split_and!; [done | done | done |].
    by apply getByKeys_Left.
Qed.

End getByKeys_facts.

(** The doctests of [lookup] and [getByKeys]; the set [{'a', 'c'}] in both
    iteration orders. *)
Example doctest_lookup :
  lookup "a" [("a", VInt 1); ("b", VInt 2)] = Maybe.Some (VInt 1)
  ∧ lookup "c" [("a", VInt 1); ("b", VInt 2)] = Maybe.Nothing.
Proof. split; reflexivity. Qed.

Example doctest_getByKeys :
  getByKeys ["a"] [("a", VInt 1); ("b", VInt 2)] = Either.Right [("a", VInt 1)]
  ∧ getByKeys ["a"; "c"] [("a", VInt 1); ("b", VInt 2)] = Either.Left "c"
  ∧ getByKeys ["c"; "a"] [("a", VInt 1); ("b", VInt 2)] = Either.Left "c".
Proof. split_and!; reflexivity. Qed.

Lemma holds_intro {K} `{EqDecision K} (d : list (K * value K)) k v :
  dict_get d k = Some v → v ≠ VNone → holds d k.
Proof. intros Hg Hv. by exists v. Qed.

Lemma getByKeys_spec_witness :
  let d := [("a", VInt 1); ("b", VNone)] in
  getByKeys ["a"; "c"; "b"] d = Either.Left "c"
  ∧ getByKeys ["a"; "b"; "c"] d = Either.Left "b"
  ∧ ∃ sub, getByKeys ["a"] d = Either.Right sub ∧ dict_get sub "a" = Some (VInt 1)
           ∧ dict_get sub "b" = None.
Proof.
  set (d := [("a", VInt 1); ("b", VNone)]).
  assert (Ha : holds d "a") by (by apply (holds_intro d "a" (VInt 1))).
  assert (Hb : ¬ holds d "b") by (intros (v & [= <-] & Hv); done).
  assert (Hc : ¬ holds d "c") by (intros (v & [=] & _)).
  split_and!.
  - apply (proj1 (getByKeys_spec ["a"; "c"; "b"] d) ["a"] "c" ["b"] eq_refl);
      [by constructor | done].
  - apply (proj1 (getByKeys_spec ["a"; "b"; "c"] d) ["a"] "b" ["c"] eq_refl);
      [by constructor | done].
  - destruct (proj2 (getByKeys_spec ["a"] d)) as (sub & Hsub & _ & Hget);
      [by constructor|].
    exists sub. split_and!; [done | |].
    + by rewrite (Hget "a").
    + by rewrite (Hget "b").
Defined.

(** Claim C1 as it is written fails on a key stored with the value
    [None]: no key of [ks] is missing from [d], yet the result is a
    [Left] and not [Right] of the sub-mapping. *)
Lemma getByKeys_None_value_counterexample :
  let ks := ["a"] in
  let d := [("a", VNone)] in
  (∀ k, k ∈ ks → dict_get d k ≠ None)
  ∧ getByKeys ks d = Either.Left "a"
  ∧ ¬ ∃ sub, getByKeys ks d = Either.Right sub.
Proof.
  split_and!.
  - intros k Hk. apply list_elem_of_singleton in Hk as ->. done.
  - reflexivity.
  - intros (sub & Hsub). discriminate Hsub.
Qed.

Lemma lookup_None_value_witness :
  let d := [("a", VInt 1); ("b", VNone)] in
  dict_get d "b" = Some VNone
  ∧ lookup "b" d = Maybe.Nothing
  ∧ lookup "b" [("a", VInt 1)] = lookup "b" d
  ∧ getByKeys ["a"; "b"; "c"] d = Either.Left "b".
Proof.
  set (d := [("a", VInt 1); ("b", VNone)]).
  assert (Hb : dict_get d "b" = Some VNone) by reflexivity.
  assert (Hb' : dict_get [("a", VInt (K:=string) 1)] "b" = None) by reflexivity.
  destruct (lookup_None_value d "b" Hb) as (Hl & Hsame & Hleft & _).
  split_and!; [exact Hb | exact Hl | exact (Hsame _ Hb') |].
  apply (Hleft ["a"] ["c"]). constructor; [|constructor].
  by apply (holds_intro d "a" (VInt 1)).
Defined.

(** Claim C10 as it is written fails when a key that comes before [k] in
    the iteration order of [ks] is missing too: the result is [Left] of
    that earlier key. *)
Lemma getByKeys_earlier_key_counterexample :
  let ks := ["c"; "a"] in
  let d := [("a", VNone)] in
  dict_get d "a" = Some VNone
  ∧ "a" ∈ ks
  ∧ getByKeys ks d = Either.Left "c"
  ∧ getByKeys ks d ≠ Either.Left "a".
Proof.
  split_and!; [reflexivity | | reflexivity | discriminate].
  apply list_elem_of_further, list_elem_of_here.
Qed.

(** ** append *)

Section append_facts.
Context {K : Type} `{EqDecision K}.
Implicit Types (d : list (K * value K)) (k : K).

(** [append] in the shape of the source: [{**d1, **d2, **d3}]. *)
Lemma append_unfold (d1 d2 : list (K * value K)) :
  append d1 d2 =
    dict_update (dict_update (dict_update [] d1) d2)
                (dict_of_items (both_dicts d1 d2)).
Proof.
  unfold append at 1. cbn [append_value]. do 2 f_equal.
  induction d1 as [|[k v] d1 IH]; [done|].
  destruct v as [| | |v1]; cbn [both_dicts]; try apply IH.
  destruct (dict_get d2 k) as [[| | |v2]|]; try apply IH.
  f_equal. apply IH.
Qed.

Lemma both_dicts_keys (d1 d2 : list (K * value K)) k :
  k ∈ (both_dicts d1 d2).*1 → k ∈ d1.*1.
Proof.
  induction d1 as [|[k0 v] d1 IH]; [done|].
  cbn [both_dicts fmap list_fmap fst]. intros Hin. apply elem_of_cons.
  destruct v as [| | |v1]; try (right; by apply IH).
  destruct (dict_get d2 k0) as [[| | |v2]|]; try (right; by apply IH).
  cbn [fmap list_fmap fst] in Hin.
  apply elem_of_cons in Hin as [->|Hin]; [by left | right; by apply IH].
Qed.

Lemma both_dicts_uniq (d1 d2 : list (K * value K)) :
  uniq_keys d1 → uniq_keys (both_dicts d1 d2).
Proof.
  unfold uniq_keys. induction d1 as [|[k0 v] d1 IH]; [done|].
  cbn [both_dicts fmap list_fmap fst]. rewrite NoDup_cons. intros [Hnotin Hnd].
  destruct v as [| | |v1]; try by apply IH.
  destruct (dict_get d2 k0) as [[| | |v2]|]; try by apply IH.
  cbn [fmap list_fmap fst]. apply NoDup_cons. split; [|by apply IH].
  intros Hin. by apply Hnotin, (both_dicts_keys d1 d2).
Qed.

Lemma both_dicts_get (d1 d2 : list (K * value K)) k :
  uniq_keys d1 →
  dict_get (both_dicts d1 d2) k =
    match dict_get d1 k, dict_get d2 k with
    | Some (VDict v1), Some (VDict v2) => Some (VDict (append v1 v2))
    | _, _ => None
    end.
Proof.
  unfold uniq_keys. induction d1 as [|[k0 v] d1 IH]; [done|].
  cbn [both_dicts dict_get fmap list_fmap fst]. rewrite NoDup_cons.
  intros [Hnotin Hnd]. specialize (IH Hnd).
  assert (Hnone : k0 = k → dict_get (both_dicts d1 d2) k = None).
  { intros <-. apply dict_get_None. intros Hin.
    by apply Hnotin, (both_dicts_keys d1 d2). }
  destruct (decide (k0 = k)) as [->|Hne].
  - destruct v as [| | |v1]; try by apply Hnone.
    destruct (dict_get d2 k) as [[| | |v2]|]; try by apply Hnone.
    cbn [dict_get]. by rewrite decide_True.
  - destruct v as [| | |v1]; try done.
    destruct (dict_get d2 k0) as [[| | |v2]|]; try done.
    cbn [dict_get]. by rewrite decide_False.
Qed.

Lemma append_get (d1 d2 : list (K * value K)) k :
  uniq_keys d1 → uniq_keys d2 →
  dict_get (append d1 d2) k =
    match dict_get d1 k, dict_get d2 k with
    | Some (VDict v1), Some (VDict v2) => Some (VDict (append v1 v2))
    | _, Some v2 => Some v2
    | o1, None => o1
    end.
Proof.
  intros Hnd1 Hnd2. rewrite append_unfold.
  rewrite (dict_of_items_uniq (both_dicts d1 d2)) by by apply both_dicts_uniq.
  rewrite dict_get_update by by apply both_dicts_uniq.
  rewrite dict_get_update by done.
  rewrite (dict_update_app_uniq [] d1) by done. cbn [app].
  rewrite both_dicts_get by done.
  destruct (dict_get d1 k) as [[| | |v1]|], (dict_get d2 k) as [[| | |v2]|]; done.
Qed.

Lemma append_uniq (d1 d2 : list (K * value K)) : uniq_keys (append d1 d2).
Proof. rewrite append_unfold. do 3 apply uniq_keys_update. apply uniq_keys_nil. Qed.

Lemma nesting_VDict (d : list (K * value K)) : nesting (VDict d) = S (deepest d).
Proof. reflexivity. Qed.

Lemma deepest_elem (d : list (K * value K)) k v :
  (k, v) ∈ d → nesting v ≤ deepest d.
Proof.
  induction d as [|[k0 v0] d IH]; intros Hin.
  - by apply elem_of_nil in Hin.
  - cbn [deepest]. apply elem_of_cons in Hin as [[= -> ->]|Hin]; [lia|].
    specialize (IH Hin). lia.
Qed.

Lemma both_dicts_with_enough
    (rec : list (K * value K) → list (K * value K) → result (list (K * value K)))
    (n : nat) (d1 d2 : list (K * value K)) :
  (∀ v1 v2, Nat.min (nesting (VDict v1)) (nesting (VDict v2)) ≤ n →
            rec v1 v2 = Ok (append v1 v2)) →
  Nat.min (deepest d1) (deepest d2) ≤ n →
  both_dicts_with rec d1 d2 = Ok (both_dicts d1 d2).
Proof.
  intros Hrec. induction d1 as [|[k v] d1 IH]; intros Hle; [done|].
  cbn [deepest] in Hle. cbn [both_dicts_with both_dicts].
  assert (Htl : Nat.min (deepest d1) (deepest d2) ≤ n) by lia.
  destruct v as [| | |v1]; try by apply IH.
  destruct (dict_get d2 k) as [[| | |v2]|] eqn:Hg; try by apply IH.
  apply dict_get_Some_elem, deepest_elem in Hg.
  rewrite Hrec by lia. cbn. rewrite IH by done. done.
Qed.

(** Claim C2.  For dicts [d1] and [d2], [append(d1, d2)] maps a key that
    both have with a dict on both sides to the [append] of the two
    sub-dicts; every other key of either operand is carried through, with
    the value of [d2] when both have it; the result is a dict again.  The
    three examples of the spec hold. *)
Theorem append_spec :
  (∀ (d1 d2 : list (K * value K)) k,
      uniq_keys d1 → uniq_keys d2 →
      dict_get (append d1 d2) k =
        match dict_get d1 k, dict_get d2 k with
        | Some (VDict v1), Some (VDict v2) => Some (VDict (append v1 v2))
        | _, Some v2 => Some v2
        | o1, None => o1
        end)
  ∧ (∀ d1 d2 : list (K * value K), uniq_keys (append d1 d2))
  ∧ append [] [("a", VInt 1)] = [("a", VInt 1)]
  ∧ append [("a", VInt 1)] [("a", VInt 2)] = [("a", VInt 2)]
  ∧ append [("a", VDict [("x", VInt 1)])] [("a", VDict [("y", VInt 2)])]
    = [("a", VDict [("x", VInt 1); ("y", VInt 2)])].
Proof.
  split_and!; [| | reflexivity..].
  - intros d1 d2 k. apply append_get.
  - apply append_uniq.
Qed.

(** Claim C7.  [append] ends on every pair of dicts, and it ends within a
    call stack as deep as the nesting of the shallower operand: with room
    for that many nested activations it returns the result of [append],
    and no activation raises [RecursionError]. *)
Theorem append_terminates (frames : nat) (d1 d2 : list (K * value K)) :
  Nat.min (nesting (VDict d1)) (nesting (VDict d2)) ≤ frames →
  append_frames frames d1 d2 = Ok (append d1 d2).
Proof.
  revert d1 d2. induction frames as [|n IH]; intros d1 d2 Hle.
  - rewrite !nesting_VDict in Hle. lia.
  - rewrite !nesting_VDict in Hle. cbn [append_frames].
    rewrite (both_dicts_with_enough _ n) by (done || lia).
    rewrite append_unfold. reflexivity.
Qed.

End append_facts.

Example doctest_append :
  append [("a", VInt 1)] [("b", VInt 2)] = [("a", VInt 1); ("b", VInt 2)].
Proof. reflexivity. Qed.

(** With too little room the nested activation raises. *)
Example append_frames_too_few :
  append_frames 1 [("a", VDict [("x", VInt 1)])] [("a", VDict [("y", VInt 2)])]
  = Raise RecursionError.
Proof. reflexivity. Qed.

Lemma append_spec_witness :
  let d1 := [("a", VDict [("x", VInt 1)]); ("b", VInt 1); ("c", VInt 1)] in
  let d2 := [("a", VDict [("y", VInt 2)]); ("b", VInt 2); ("d", VInt 2)] in
  uniq_keys d1 ∧ uniq_keys d2
  ∧ dict_get (append d1 d2) "a" = Some (VDict [("x", VInt 1); ("y", VInt 2)])
  ∧ dict_get (append d1 d2) "b" = Some (VInt 2)
  ∧ dict_get (append d1 d2) "c" = Some (VInt 1)
  ∧ dict_get (append d1 d2) "d" = Some (VInt 2).
Proof.
  set (d1 := [("a", VDict [("x", VInt 1)]); ("b", VInt 1); ("c", VInt 1)]).
  set (d2 := [("a", VDict [("y", VInt 2)]); ("b", VInt 2); ("d", VInt 2)]).
  assert (H1 : uniq_keys d1) by (by compute_done).
  assert (H2 : uniq_keys d2) by (by compute_done).
  pose proof (λ k, proj1 (append_spec (K:=string)) d1 d2 k H1 H2) as Hget.
  split_and!; [done | done | ..].
  - rewrite (Hget "a"). reflexivity.
  - rewrite (Hget "b"). reflexivity.
  - rewrite (Hget "c"). reflexivity.
  - rewrite (Hget "d"). reflexivity.
Defined.

Lemma append_terminates_witness :
  let d1 := [("a", VDict [("x", VInt 1)])] in
  let d2 := [("a", VDict [("y", VDict [("z", VInt 2)])])] in
  Nat.min (nesting (VDict d1)) (nesting (VDict d2)) ≤ 2
  ∧ append_frames 2 d1 d2
    = Ok [("a", VDict [("x", VInt 1); ("y", VDict [("z", VInt 2)])])].
Proof.
  set (d1 := [("a", VDict [("x", VInt 1)])]).
  set (d2 := [("a", VDict [("y", VDict [("z", VInt 2)])])]).
  assert (Hle : Nat.min (nesting (VDict d1)) (nesting (VDict d2)) ≤ 2)
    by (vm_compute; lia).
  split; [exact Hle|].
  rewrite (append_terminates 2 d1 d2 Hle). reflexivity.
Defined.

(** ** str.split *)

Lemma app_String (c : ascii) (p r : string) :
  String c p +:+ r = String c (p +:+ r).
Proof. reflexivity. Qed.

Lemma app_EmptyString (r : string) : "" +:+ r = r.
Proof. reflexivity. Qed.

Lemma app_length (p r : string) :
  String.length (p +:+ r) = String.length p + String.length r.
Proof.
  induction p as [|a p IH]; [done|].
  rewrite app_String. cbn [String.length]. by rewrite IH.
Qed.

Lemma strip_prefix_Some (p s rest : string) :
  strip_prefix p s = Some rest → s = p +:+ rest.
Proof.
  revert s. induction p as [|a p IH]; intros s; cbn [strip_prefix].
  - by intros [= ->].
  - destruct s as [|b s]; [done|]. destruct (decide (a = b)) as [->|]; [|done].
    intros Hs. rewrite app_String. f_equal. by apply IH.
Qed.

Lemma strip_prefix_app (p rest : string) : strip_prefix p (p +:+ rest) = Some rest.
Proof.
  induction p as [|a p IH]; [by destruct rest|].
  rewrite app_String. cbn [strip_prefix]. by rewrite decide_True.
Qed.

Lemma partition_Some (sep s before after : string) :
  partition sep s = Some (before, after) → s = before +:+ sep +:+ after.
Proof.
  revert before. induction s as [|c s IH]; intros before; cbn [partition].
  - destruct (strip_prefix sep "") as [rest|] eqn:Hp; [|done].
    intros [= <- <-]. by apply strip_prefix_Some in Hp.
  - destruct (strip_prefix sep (String c s)) as [rest|] eqn:Hp.
    + intros [= <- <-]. by apply strip_prefix_Some in Hp.
    + destruct (partition sep s) as [[b a]|]; [|done].
      intros [= <- <-]. rewrite app_String. f_equal. by apply IH.
Qed.

Lemma partition_length (sep s before after : string) :
  partition sep s = Some (before, after) →
  String.length s = String.length before + String.length sep + String.length after.
Proof.
  intros Hf. apply partition_Some in Hf as ->. rewrite !app_length. lia.
Qed.

Lemma sep_length_pos (sep : string) : sep ≠ "" → 0 < String.length sep.
Proof. destruct sep; [done | cbn; lia]. Qed.

Lemma partition_contains (sep s : string) :
  partition sep s = None ↔ contains sep s = false.
Proof.
  induction s as [|c s IH]; cbn [partition contains].
  - by destruct (strip_prefix sep "").
  - destruct (strip_prefix sep (String c s)); [done|].
    rewrite <- IH. by destruct (partition sep s) as [[b a]|].
Qed.

(** [contains] is the substring test. *)
Lemma contains_spec (sub s : string) :
  contains sub s = true ↔ ∃ a b, s = a +:+ sub +:+ b.
Proof.
  split.
  - destruct (partition sub s) as [[a b]|] eqn:Hf.
    + intros _. exists a, b. by apply partition_Some.
    + apply partition_contains in Hf. congruence.
  - intros (a & b & ->). induction a as [|c a IH].
    + rewrite app_EmptyString.
      destruct (sub +:+ b) eqn:Heq; cbn [contains];
        rewrite <- Heq, strip_prefix_app; done.
    + rewrite app_String. cbn [contains]. rewrite IH.
      by destruct (strip_prefix _ _).
Qed.

(** A limit of [length s] cuts, or more, is never reached. *)
Lemma split_max_enough (sep : string) (n m : nat) (s : string) :
  sep ≠ "" → String.length s ≤ n → String.length s ≤ m →
  split_max n s sep = split_max m s sep.
Proof.
  intros Hsep. revert m s. induction n as [|n IH]; intros m s Hn Hm.
  - destruct s; [|cbn in Hn; lia]. destruct m; [done|].
    cbn. by destruct sep.
  - cbn [split_max]. destruct (partition sep s) as [[b a]|] eqn:Hf.
    + pose proof (partition_length _ _ _ _ Hf). pose proof (sep_length_pos _ Hsep).
      destruct m as [|m]; [lia|]. cbn [split_max]. rewrite Hf.
      f_equal. apply IH; lia.
    + destruct m; [done|]. cbn [split_max]. by rewrite Hf.
Qed.

(** The segments, joined by the separator, give the string back. *)
Lemma concat_split_max (sep : string) (n : nat) (s : string) :
  String.concat sep (split_max n s sep) = s.
Proof.
  revert s. induction n as [|n IH]; intros s; [done|].
  cbn [split_max]. destruct (partition sep s) as [[b a]|] eqn:Hf; [|done].
  apply partition_Some in Hf as ->. specialize (IH a).
  cbn [String.concat]. destruct (split_max n a sep) eqn:Hs.
  - by destruct n; cbn in Hs; [|destruct (partition sep a) as [[]|]].
  - by rewrite IH.
Qed.

Lemma app_assoc_string (a b c : string) : (a +:+ b) +:+ c = a +:+ b +:+ c.
Proof.
  induction a as [|x a IH]; [done|]. rewrite !app_String. by rewrite IH.
Qed.

Lemma strip_prefix_None_empty (sep : string) :
  sep ≠ "" → strip_prefix sep "" = None.
Proof. by destruct sep. Qed.

Lemma partition_before (sep s before after : string) :
  sep ≠ "" → partition sep s = Some (before, after) → contains sep before = false.
Proof.
  intros Hsep. revert before. induction s as [|c s IH]; intros before; cbn [partition].
  - by rewrite strip_prefix_None_empty.
  - destruct (strip_prefix sep (String c s)) as [rest|] eqn:Hp.
    + intros [= <- <-]. cbn [contains]. by rewrite strip_prefix_None_empty.
    + destruct (partition sep s) as [[b a]|] eqn:Hf; [|done].
      intros [= <- <-]. cbn [contains]. rewrite (IH b eq_refl).
      destruct (strip_prefix sep (String c b)) as [r|] eqn:Hb; [|done].
      apply strip_prefix_Some in Hb. apply partition_Some in Hf.
      rewrite Hf, <- app_String, Hb, app_assoc_string, strip_prefix_app in Hp.
      done.
Qed.

(** No segment contains the separator. *)
Lemma split_max_segments (sep : string) (n : nat) (s : string) :
  sep ≠ "" → String.length s ≤ n →
  Forall (λ part, contains sep part = false) (split_max n s sep).
Proof.
  intros Hsep. revert s. induction n as [|n IH]; intros s Hn.
  - destruct s; [|cbn in Hn; lia]. constructor; [|constructor].
    cbn [contains]. by rewrite strip_prefix_None_empty.
  - cbn [split_max]. destruct (partition sep s) as [[b a]|] eqn:Hf.
    + pose proof (partition_length _ _ _ _ Hf). pose proof (sep_length_pos _ Hsep).
      constructor; [by eapply partition_before | apply IH; lia].
    + constructor; [by apply partition_contains | constructor].
Qed.

(** ** unflatten *)

Lemma unflatten1_cons (h : string) (t : list string) (v : value string) :
  unflatten1 (h :: t) v = Ok (path_singleton h t v).
Proof.
  revert h. induction t as [|h' t IH]; intros h; [done|].
  cbn [unflatten1 path_singleton] in *. rewrite decide_False by done.
  specialize (IH h'). cbn [length] in IH.
  destruct (decide (length t = 0)) as [Hl|Hl].
  - cbn. by destruct t.
  - rewrite IH. reflexivity.
Qed.

Lemma split_unflatten1 (sep k : string) (v : value string) :
  sep ≠ "" →
  (parts ← split k sep; unflatten1 parts v) = Ok (contribution sep k v).
Proof.
  intros Hsep. unfold split, contribution. rewrite decide_False by done.
  cbn [mbind result_bind].
  destruct (contains sep k) eqn:Hc.
  - destruct (split_max (String.length k) k sep) as [|h t] eqn:Hs.
    + by destruct (String.length k); cbn in Hs; [|destruct (partition sep k) as [[]|]].
    + apply unflatten1_cons.
  - apply partition_contains in Hc.
    assert (split_max (String.length k) k sep = [k]) as ->; [|done].
    destruct (String.length k); [done|]. cbn [split_max]. by rewrite Hc.
Qed.

Lemma unflatten_fold (sep : string) (d acc : list (string * value string)) :
  sep ≠ "" →
  foldl (λ acc kv,
           a ← acc;
           parts ← split kv.1 sep;
           one ← unflatten1 parts kv.2;
           Ok (append a one))
        (Ok acc) d
  = Ok (foldl (λ acc kv, append acc (contribution sep kv.1 kv.2)) acc d).
Proof.
  intros Hsep. revert acc. induction d as [|[k v] d IH]; intros acc; [done|].
  cbn [foldl fst snd]. rewrite <- IH. f_equal.
  pose proof (split_unflatten1 sep k v Hsep) as Hk.
  destruct (split k sep) as [parts|e]; cbv [mbind result_bind] in Hk |- *;
    [|done].
  by rewrite Hk.
Qed.

(** Claim C3, as amended.  For a separator that is not the empty string,
    [unflatten(d, sep)] is the fold of the deep merge, from the empty
    dict and in the iteration order of [d], over the contributions of the
    items: for a key that contains the separator the singleton nested
    dict that mirrors its path segments, with the value at the end, and
    for any other key the top-level leaf.  The segments of a key, joined
    by the separator, give the key back, and none of them contains the
    separator.  The two examples of the spec hold. *)
Theorem unflatten_spec :
  (∀ (d : list (string * value string)) (sep : string),
      sep ≠ "" →
      unflatten d sep = Ok (unflattenKeys d sep)
      ∧ ∀ k, String.concat sep (split_max (String.length k) k sep) = k
             ∧ Forall (λ part, contains sep part = false)
                      (split_max (String.length k) k sep))
  ∧ unflatten [("a.b", VInt 1); ("a.c", VInt 2); ("x", VInt 3)] "."
    = Ok [("a", VDict [("b", VInt 1); ("c", VInt 2)]); ("x", VInt 3)]
  ∧ unflatten [] "." = Ok [].
Proof.
  split_and!; [|reflexivity..].
  intros d sep Hsep. split.
  - by apply unflatten_fold.
  - intros k. split; [apply concat_split_max | by apply split_max_segments].
Qed.

Lemma unflatten_spec_witness :
  "/" ≠ ""
  ∧ unflatten [("a/b/c", VInt 1); ("a/b/d", VStr "x"); ("a", VInt 3)] "/"
    = Ok (unflattenKeys [("a/b/c", VInt 1); ("a/b/d", VStr "x"); ("a", VInt 3)] "/")
  ∧ unflattenKeys [("a/b/c", VInt 1); ("a/b/d", VStr "x"); ("a", VInt 3)] "/"
    = [("a", VInt 3)].
Proof.
  assert (Hsep : "/" ≠ "") by done.
  split; [exact Hsep|]. split; [|reflexivity].
  exact (proj1 (proj1 unflatten_spec _ "/" Hsep)).
Defined.

(** The doctests of [unflatten]. *)
Example doctest_unflatten :
  unflatten [("a", VInt 1); ("b", VInt 2)] "." = Ok [("a", VInt 1); ("b", VInt 2)]
  ∧ unflatten [("a.b", VInt 1)] "." = Ok [("a", VDict [("b", VInt 1)])].
Proof. split; reflexivity. Qed.

(** Claim C3 as it is written fails for the empty separator, which
    [str.split] refuses. *)
Lemma unflatten_empty_separator_counterexample :
  unflatten [("a", VInt 1)] "" = Raise ValueError.
Proof. reflexivity. Qed.

(** ** The do-notation interpreter *)

Section do_facts.
Context {X M Ev E : Type} `{!Do.Container X M Ev E} (none : X)
  (attribute_error : E).
Implicit Types (p q : Do.prog X M Ev E) (w : Do.world X M Ev E)
  (lg evs : list Ev) (val : X).

(** [send] hands back what its [except] clauses let through. *)
Lemma except_clauses_send depth val w :
  Do.except_clauses (Do.send none depth val w) = Do.send none depth val w.
Proof.
  destruct depth as [|n]; [done|]. cbn [Do.send].
  by destruct (match Do.it_send none val w with
               | Do.Done m w1 => Do.flatmap m (Do.send none n) w1
               | Do.Raised e w1 => Do.Raised e w1
               | Do.Overflow => Do.Overflow
               end) as [a w2|[r|v|e] w2|].
Qed.

(** The value sent to a generator that has not started is not used. *)
Lemma send_unstarted depth val val' p lg :
  Do.send none depth val (Do.World (Do.Unstarted p) lg)
  = Do.send none depth val' (Do.World (Do.Unstarted p) lg).
Proof. by destruct depth. Qed.

Lemma send_suspended depth val val' (k : X → Do.prog X M Ev E) lg :
  Do.send none depth val (Do.World (Do.Suspended k) lg)
  = Do.send none depth val' (Do.World (Do.Unstarted (k val)) lg).
Proof. by destruct depth. Qed.

Lemma send_effect depth val ev p lg :
  Do.send none depth val (Do.World (Do.Unstarted (Do.Effect ev p)) lg)
  = Do.send none depth val (Do.World (Do.Unstarted p) (lg ++ [ev])).
Proof. by destruct depth. Qed.

Lemma send_yield depth val m (k : X → Do.prog X M Ev E) x lg :
  Do.payload m = Some x →
  Do.send none (S depth) val (Do.World (Do.Unstarted (Do.Yield m k)) lg)
  = Do.send none depth val (Do.World (Do.Unstarted (k x)) lg).
Proof.
  intros Hm. cbn [Do.send Do.it_send Do.it Do.log Do.resume].
  rewrite Do.flatmap_payload, Hm, except_clauses_send.
  apply send_suspended.
Qed.

(** Running from [p] is running from the position [p] reaches, with the
    side effects on the way performed and one level of the stack used
    per yield passed. *)
Lemma send_reaches p evs n q :
  Do.reaches p evs n q →
  ∀ depth val lg,
    Do.send none (n + depth) val (Do.World (Do.Unstarted p) lg)
    = Do.send none depth val (Do.World (Do.Unstarted q) (lg ++ evs)).
Proof.
  induction 1 as [p|ev p evs n q _ IH|m k x evs n q Hm _ IH];
    intros depth val lg.
  - by rewrite app_nil_r.
  - rewrite send_effect, IH. by rewrite <- (assoc_L (++)).
  - cbn [Nat.add]. rewrite (send_yield _ _ _ _ x) by done. apply IH.
Qed.

Lemma do_reaches {Args : Type} (f : Args → Do.prog X M Ev E) (args : Args)
    evs n q depth :
  Do.reaches (f args) evs n q → n < depth →
  Do.do none depth f args
  = Do.send none (depth - n) none (Do.World (Do.Unstarted q) evs).
Proof.
  intros Hreach Hlt. unfold Do.do.
  replace depth with (n + (depth - n)) at 1 by lia.
  by rewrite (send_reaches _ _ _ _ Hreach).
Qed.

(** Claim C4, as amended.  For a generator function: when the program,
    resumed with the payload of each container it yields, comes to
    [mreturn(v)], the interpreter ends and returns [M.unit(v)]; and no
    run of the interpreter on a generator function lets [ReturnMonadic]
    out to its caller. *)
Theorem do_mreturn {Args : Type} (f : Args → Do.prog X M Ev E) (args : Args) :
  (∀ evs n v depth,
      Do.reaches (f args) evs n (Do.MReturn v) → n < depth →
      Do.run none attribute_error depth (Do.GeneratorFunction f) args
      = Do.Done (Do.Cont (Do.unit v)) (Do.World Do.Exhausted evs))
  ∧ (∀ depth v w,
      Do.run none attribute_error depth (Do.GeneratorFunction f) args
      ≠ Do.Raised (Do.ReturnMonadic v) w).
Proof.
  cbn [Do.run]. split.
  - intros evs n v depth Hreach Hlt. rewrite (do_reaches _ _ _ _ _ _ Hreach Hlt).
    destruct (depth - n) as [|d] eqn:Hd; [lia|]. reflexivity.
  - intros depth v w. unfold Do.do. rewrite <- except_clauses_send.
    by destruct (Do.send none depth none _) as [a w2|[r|v'|e] w2|].
Qed.

(** Claim C5.  When the program, resumed with the payload of each
    container it yields, yields a container in the short-circuit state,
    the interpreter returns that container; the generator is left
    suspended at that yield, never resumed, and the side effects
    performed are exactly those of the steps before it. *)
Theorem do_short_circuit {Args : Type} (f : Args → Do.prog X M Ev E)
    (args : Args) evs n m (k : X → Do.prog X M Ev E) depth :
  Do.reaches (f args) evs n (Do.Yield m k) → Do.payload m = None → n < depth →
  Do.do none depth f args = Do.Done (Do.Cont m) (Do.World (Do.Suspended k) evs).
Proof.
  intros Hreach Hm Hlt. rewrite (do_reaches _ _ _ _ _ _ Hreach Hlt).
  destruct (depth - n) as [|d] eqn:Hd; [lia|].
  cbn [Do.send Do.it_send Do.it Do.log Do.resume].
  by rewrite Do.flatmap_payload, Hm.
Qed.


End do_facts.

(** The doctests of [do.py]. *)
Example doctest_mconcat :
  Do.do None 3 mconcat (Maybe.Some (Some "Hello"), Maybe.Some (Some "World"))
  = Do.Done (Do.Cont (Maybe.Some (Some "Hello, World!")))
            (Do.World Do.Exhausted [])
  ∧ (∃ k, Do.do None 3 mconcat (Maybe.Nothing, Maybe.Some (Some "World"))
          = Do.Done (Do.Cont Maybe.Nothing) (Do.World (Do.Suspended k) [])).
Proof. split; [reflexivity | eexists; reflexivity]. Qed.

Lemma do_mreturn_witness :
  let args := (Maybe.Some (Some "Hello"), Maybe.Some (Some "World")) in
  Do.reaches (three_steps args) ["first"; "second"; "third"] 2
             (Do.MReturn (Some "Hello, World!"))
  ∧ Do.run None AttributeError 3 (Do.GeneratorFunction three_steps) args
    = Do.Done (Do.Cont (Maybe.Some (Some "Hello, World!")))
              (Do.World Do.Exhausted ["first"; "second"; "third"]).
Proof.
  set (args := (Maybe.Some (Some "Hello"), Maybe.Some (Some "World"))).
  assert (Hreach : Do.reaches (three_steps args) ["first"; "second"; "third"] 2
                     (Do.MReturn (Some "Hello, World!"))).
  { apply Do.reaches_effect, (Do.reaches_yield _ _ (Some "Hello")); [reflexivity|].
    apply Do.reaches_effect, (Do.reaches_yield _ _ (Some "World")); [reflexivity|].
    apply Do.reaches_effect, Do.reaches_here. }
  split; [exact Hreach|].
  apply (proj1 (do_mreturn None AttributeError three_steps args) _ 2 _ 3 Hreach).
  lia.
Defined.

(** Claim C4 as it is written fails on a decorated function with no
    [yield]: its body, [mreturn(1)], runs at the call [f(args)] of [run],
    outside the [try] of [send], so [ReturnMonadic] reaches the caller
    and [M.unit(1)] is not returned. *)
Lemma do_plain_function_counterexample :
  let f := Do.PlainFunction (Args:=unit) (M:=Maybe.t (value string)) (Ev:=string)
             (λ _, Do.PMReturn (VInt 1)) in
  Do.run VNone AttributeError 3 f ()
  = Do.Raised (Do.ReturnMonadic (VInt 1)) (Do.World Do.Exhausted [])
  ∧ ∀ depth w,
      Do.run VNone AttributeError depth f ()
      ≠ Do.Done (Do.Cont (Maybe.Some (VInt 1))) w.
Proof. split; [reflexivity | intros depth w; discriminate]. Qed.

Lemma do_short_circuit_witness :
  let args := (Maybe.Some (Some "Hello"), Maybe.Nothing) in
  let rest := λ b, Do.Effect "third" (Do.MReturn (greeting (Some "Hello") b)) in
  Do.reaches (three_steps args) ["first"; "second"] 1
             (Do.Yield Maybe.Nothing rest)
  ∧ Do.do None 2 three_steps args
    = Do.Done (Do.Cont Maybe.Nothing)
              (Do.World (Do.Suspended rest) ["first"; "second"]).
Proof.
  set (args := (Maybe.Some (Some "Hello"), Maybe.Nothing)).
  set (rest := λ b, Do.Effect "third" (Do.MReturn (greeting (Some "Hello") b))).
  assert (Hreach : Do.reaches (three_steps args) ["first"; "second"] 1
                     (Do.Yield Maybe.Nothing rest)).
  { apply Do.reaches_effect, (Do.reaches_yield _ _ (Some "Hello")); [reflexivity|].
    apply Do.reaches_effect, Do.reaches_here. }
  split; [exact Hreach|].
  apply (do_short_circuit None three_steps args _ 1 _ _ 2 Hreach);
    [reflexivity | lia].
Defined.

(** The same over the disjoint-branch container: a [Left] stops the run. *)
Example do_short_circuit_either :
  ∃ k, Do.do (M:=Either.t string (value string)) (Ev:=string) (E:=pyexn)
         VNone 3
         (λ _ : unit,
            Do.Effect "first"
              (Do.Yield (Either.Left "no")
                 (λ a, Do.Effect "second" (Do.MReturn a))))
         ()
       = Do.Done (Do.Cont (Either.Left "no")) (Do.World (Do.Suspended k) ["first"]).
Proof. eexists. reflexivity. Qed.



(** * Part III: further properties of the code *)

(** ** merge, delete, insert, filterWithKey *)

Section more_dict_facts.
Context {K V : Type} `{EqDecision K}.
Implicit Types (d e : list (K * V)) (k key : K).

Lemma filter_not_in_snoc (l ks : list K) k :
  k ∉ l → filter (λ x, x ∉ ks ++ [k]) l = filter (λ x, x ∉ ks) l.
Proof.
  induction l as [|x l IH]; [done|]. rewrite not_elem_of_cons.
  intros [Hne Hnotin]. rewrite !filter_cons, IH by done.
  destruct (decide (x ∉ ks)) as [Hx|Hx].
  - rewrite decide_True; [done|].
    rewrite elem_of_app, list_elem_of_singleton. intros [?|?]; done.
  - rewrite decide_False; [done|].
    intros Hx'. apply Hx. intros ?. apply Hx'. apply elem_of_app. by left.
Qed.

(** The keys after [{**d, **e}]: those of [d] in their order, then the
    new keys of [e] in theirs. *)
Lemma dict_update_keys d e :
  uniq_keys e →
  (dict_update d e).*1 = d.*1 ++ filter (λ k, k ∉ d.*1) e.*1.
Proof.
  unfold uniq_keys, dict_update. revert d.
  induction e as [|[k v] e IH]; intros d Hnd; cbn [fold_left fmap list_fmap fst snd].
  - by rewrite filter_nil, app_nil_r.
  - apply NoDup_cons in Hnd as [Hnotin Hnd]. rewrite IH by done.
    rewrite dict_set_keys, filter_cons.
    destruct (decide (k ∈ d.*1)) as [Hin|Hout].
    + by rewrite decide_False by (intros ?; done).
    + rewrite decide_True by done. rewrite <- (assoc_L (++)). cbn [app].
      by rewrite filter_not_in_snoc.
Qed.

Lemma dict_set_same d k v : (k, v) ∈ d → uniq_keys d → dict_set d k v = d.
Proof.
  unfold uniq_keys. induction d as [|[k0 v0] d IH]; intros Hin Hnd.
  - by apply elem_of_nil in Hin.
  - cbn [dict_set]. apply NoDup_cons in Hnd as [Hnotin Hnd].
    apply elem_of_cons in Hin as [[= -> ->]|Hin].
    + by rewrite decide_True.
    + rewrite decide_False; [by rewrite IH|].
      intros ->. apply Hnotin. apply list_elem_of_fmap. by exists (k, v).
Qed.

(** Storing items the dict already has changes nothing. *)
Lemma dict_update_sub d e :
  uniq_keys d → (∀ kv, kv ∈ e → kv ∈ d) → dict_update d e = d.
Proof.
  intros Hnd. unfold dict_update.
  induction e as [|[k v] e IH]; intros Hsub; [done|].
  cbn [fold_left fst snd]. rewrite dict_set_same; [|apply Hsub, list_elem_of_here|done].
  apply IH. intros kv Hkv. by apply Hsub, list_elem_of_further.
Qed.

Lemma merge_update d1 d2 : uniq_keys d1 → merge d1 d2 = dict_update d1 d2.
Proof. intros Hnd. unfold merge. by rewrite (dict_update_app_uniq [] d1). Qed.

(** Extra X1.  [merge(d1)(d2)] has, at every key, the value of [d2] when
    [d2] has the key and that of [d1] otherwise; it is a dict again; its
    keys are those of [d1] in their order followed by the new keys of [d2]
    in theirs. *)
Theorem merge_spec d1 d2 :
  uniq_keys d1 → uniq_keys d2 →
  (∀ k, dict_get (merge d1 d2) k =
          match dict_get d2 k with
          | Some v => Some v
          | None => dict_get d1 k
          end)
  ∧ uniq_keys (merge d1 d2)
  ∧ (merge d1 d2).*1 = d1.*1 ++ filter (λ k, k ∉ d1.*1) d2.*1.
Proof.
  intros Hnd1 Hnd2. rewrite merge_update by done. split_and!.
  - intros k. by apply dict_get_update.
  - by apply uniq_keys_update.
  - by apply dict_update_keys.
Qed.

(** Extra X2.  The empty dict is a unit of [merge] on both sides, merging
    a dict with itself gives it back, and [merge] is associative as far
    as lookups go. *)
Theorem merge_monoid d1 d2 d3 :
  uniq_keys d1 → uniq_keys d2 → uniq_keys d3 →
  merge d1 [] = d1
  ∧ merge [] d1 = d1
  ∧ merge d1 d1 = d1
  ∧ ∀ k, dict_get (merge (merge d1 d2) d3) k = dict_get (merge d1 (merge d2 d3)) k.
Proof.
  intros Hnd1 Hnd2 Hnd3. split_and!.
  - by rewrite merge_update.
  - unfold merge. cbn [dict_update fold_left]. by apply dict_of_items_uniq.
  - rewrite merge_update by done. by apply dict_update_sub.
  - intros k.
    assert (H12 : uniq_keys (merge d1 d2)).
    { rewrite merge_update by done. by apply uniq_keys_update. }
    assert (H23 : uniq_keys (merge d2 d3)).
    { rewrite merge_update by done. by apply uniq_keys_update. }
    rewrite (merge_update (merge d1 d2)), (merge_update d1 (merge d2 d3)) by done.
    rewrite !dict_get_update by done.
    rewrite (merge_update d1 d2), (merge_update d2 d3) by done.
    rewrite !dict_get_update by done.
    by destruct (dict_get d3 k), (dict_get d2 k).
Qed.

Lemma delete_absent key d : uniq_keys d → key ∉ d.*1 → delete key d = d.
Proof.
  intros Hnd Hout. rewrite delete_filter by done.
  clear Hnd. induction d as [|[k v] d IH]; [done|].
  cbn [fmap list_fmap fst] in Hout. apply not_elem_of_cons in Hout as [Hne Hout].
  rewrite filter_cons, decide_True by (simpl; congruence). by rewrite IH.
Qed.

Lemma delete_keys key d : uniq_keys d → key ∉ (delete key d).*1.
Proof.
  intros Hnd. rewrite delete_filter by done. intros Hin.
  apply list_elem_of_fmap in Hin as ([k v] & -> & Hin).
  apply list_elem_of_filter in Hin as [Hne _]. by apply Hne.
Qed.

Lemma filter_set_in key val d :
  uniq_keys d → filter (λ kv, kv.1 ≠ key) (dict_set d key val)
                = filter (λ kv, kv.1 ≠ key) d.
Proof.
  unfold uniq_keys. induction d as [|[k v] d IH]; intros Hnd.
  - cbn [dict_set]. rewrite filter_cons, decide_False by (simpl; tauto). done.
  - apply NoDup_cons in Hnd as [Hout Hnd]. cbn [dict_set].
    destruct (decide (k = key)) as [->|Hne].
    + rewrite !filter_cons, !decide_False by (simpl; tauto). done.
    + rewrite !filter_cons, !decide_True by done. by rewrite IH.
Qed.

(** Extra X3.  [delete] undoes [insert]: deleting the key just inserted
    gives what deleting it from the original gives, which is the
    original itself when the key was not in it.  A second [insert] at the
    same key replaces the first, and [delete] twice is [delete] once. *)
Theorem delete_insert_roundtrip key (val val' : V) d :
  uniq_keys d →
  delete key (insert key val d) = delete key d
  ∧ (key ∉ d.*1 → delete key (insert key val d) = d)
  ∧ insert key val (insert key val' d) = insert key val d
  ∧ delete key (delete key d) = delete key d
  ∧ dict_get (delete key d) key = None.
Proof.
  intros Hnd.
  assert (Hins : ∀ v, uniq_keys (insert key v d)).
  { intros v. rewrite insert_set by done. by apply uniq_keys_set. }
  assert (Hdel : uniq_keys (delete key d)).
  { rewrite delete_filter by done. by apply uniq_keys_filter. }
  assert (Hround : delete key (insert key val d) = delete key d).
  { rewrite (delete_filter key (insert key val d)) by done.
    rewrite insert_set, filter_set_in by done. by rewrite delete_filter. }
  split_and!.
  - done.
  - intros Hout. rewrite Hround. by apply delete_absent.
  - rewrite (insert_set key val (insert key val' d)) by done.
    rewrite !insert_set by done. clear.
    induction d as [|[k v] d IH]; cbn [dict_set].
    + by rewrite decide_True.
    + destruct (decide (k = key)) as [->|Hne]; cbn [dict_set].
      * by rewrite decide_True.
      * rewrite decide_False by done. by rewrite IH.
  - apply delete_absent; [done | by apply delete_keys].
  - apply dict_get_None. by apply delete_keys.
Qed.

(** Extra X4.  Filtering twice is filtering once with both predicates;
    the predicate that holds everywhere keeps the dict, the one that holds
    nowhere empties it; and the keys kept are keys of the input. *)
Theorem filterWithKey_compose (p q : K → V → bool) d :
  uniq_keys d →
  filterWithKey p (filterWithKey q d) = filterWithKey (λ k v, q k v && p k v) d
  ∧ filterWithKey (λ _ _, true) d = d
  ∧ filterWithKey (λ _ _, false) d = []
  ∧ (∀ k, dict_get (filterWithKey p d) k =
            match dict_get d k with
            | Some v => if p k v then Some v else None
            | None => None
            end).
Proof.
  intros Hnd.
  assert (Hq : uniq_keys (filterWithKey q d)).
  { rewrite filterWithKey_filter by done. by apply uniq_keys_filter. }
  split_and!.
  - rewrite (filterWithKey_filter p) by done. rewrite !filterWithKey_filter by done.
    rewrite list_filter_filter. apply list_filter_iff. intros [k v]. simpl.
    rewrite andb_True. tauto.
  - rewrite filterWithKey_filter by done. clear.
    induction d as [|kv d IH]; [done|]. by rewrite filter_cons_True, IH.
  - rewrite filterWithKey_filter by done. clear.
    induction d as [|kv d IH]; [done|]. rewrite filter_cons_False; [done|].
    by intros ?.
  - intros k. rewrite filterWithKey_filter, dict_get_filter by done.
    destruct (dict_get d k) as [v|]; [|done]. simpl.
    destruct (p k v); [by rewrite decide_True|].
    rewrite decide_False; [done | by intros ?].
Qed.

End more_dict_facts.

(** ** lookup and getByKeys, further *)

Section more_getByKeys_facts.
Context {K : Type} `{EqDecision K}.
Implicit Types (d sub : list (K * value K)) (k : K) (ks : list K).

Lemma all_hold_or_first d ks :
  Forall (holds d) ks
  ∨ ∃ ks1 k ks2, ks = ks1 ++ k :: ks2 ∧ Forall (holds d) ks1 ∧ ¬ holds d k.
Proof.
  induction ks as [|k0 ks IH]; [by left|].
  destruct (holds_dec d k0) as [H0|H0].
  - destruct IH as [Hall|(ks1 & k & ks2 & -> & Hall & Hk)].
    + left. by constructor.
    + right. exists (k0 :: ks1), k, ks2. split_and!; [done | by constructor | done].
  - right. exists [], k0, ks. split_and!; [done | constructor | done].
Qed.

Lemma getByKeys_Right_holds ks d sub :
  getByKeys ks d = Either.Right sub → Forall (holds d) ks.
Proof.
  intros Hr. destruct (all_hold_or_first d ks)
    as [Hall|(ks1 & k & ks2 & -> & Hall & Hk)]; [done|].
  by rewrite (getByKeys_Left ks1 k ks2 d Hall Hk) in Hr.
Qed.

Lemma filterWithKey_get {V} (p : K → V → bool) (d : list (K * V)) k :
  uniq_keys d →
  dict_get (filterWithKey p d) k =
    match dict_get d k with
    | Some v => if p k v then Some v else None
    | None => None
    end.
Proof.
  intros Hnd. rewrite filterWithKey_filter, dict_get_filter by done.
  destruct (dict_get d k) as [v|]; [|done]. simpl.
  destruct (p k v); [by rewrite decide_True|].
  rewrite decide_False; [done | by intros ?].
Qed.

(** Extra X5.  [getByKeys(ks, d)] is a [Right] exactly when every key of
    [ks] is stored in [d] with a value other than [None]; a [Left] always
    names a key of [ks] that is missing or stored with [None]; and the
    empty key set gives [Right] of the empty dict. *)
Theorem getByKeys_Right_iff ks d :
  ((∃ sub, getByKeys ks d = Either.Right sub) ↔ Forall (holds d) ks)
  ∧ (∀ k, getByKeys ks d = Either.Left k → k ∈ ks ∧ ¬ holds d k)
  ∧ getByKeys [] d = Either.Right [].
Proof.
  split_and!.
  - split.
    + intros [sub Hsub]. by eapply getByKeys_Right_holds.
    + intros Hall. eexists. by apply getByKeys_Right.
  - intros k Hl. destruct (all_hold_or_first d ks)
      as [Hall|(ks1 & k' & ks2 & -> & Hall & Hk)].
    + by rewrite (getByKeys_Right ks d Hall) in Hl.
    + rewrite (getByKeys_Left ks1 k' ks2 d Hall Hk) in Hl. injection Hl as <-.
      split; [|done]. apply elem_of_app. right. apply list_elem_of_here.
  - reflexivity.
Qed.

(** Extra X6.  When [getByKeys(ks, d)] is [Right(sub)], [sub] has the
    same value at every key as [filterByKey(ks, d)]; its items come in
    the iteration order of [ks] (those of [filterByKey] in the order of
    [d]). *)
Theorem getByKeys_filterByKey ks d sub :
  uniq_keys d → NoDup ks → getByKeys ks d = Either.Right sub →
  (∀ k, dict_get sub k = dict_get (filterByKey ks d) k)
  ∧ sub.*1 = ks
  ∧ (filterByKey ks d).*1 = filter (λ k, k ∈ ks) d.*1.
Proof.
  intros Hnd Hks Hr. pose proof (getByKeys_Right_holds _ _ _ Hr) as Hall.
  rewrite (getByKeys_Right ks d Hall) in Hr. injection Hr as <-.
  split_and!.
  - intros k. rewrite dict_get_picked by done.
    unfold filterByKey. rewrite filterWithKey_get by done. unfold set_mem.
    destruct (decide (k ∈ ks)) as [Hin|Hout].
    + rewrite bool_decide_eq_true_2 by done. by destruct (dict_get d k).
    + rewrite bool_decide_eq_false_2 by done. by destruct (dict_get d k).
  - assert (Hkeys : (picked ks d).*1 = ks).
    { unfold picked. clear. induction ks as [|k ks IH]; [done|].
      cbn [map fmap list_fmap fst]. f_equal. apply IH. }
    rewrite dict_of_items_uniq; [done|]. unfold uniq_keys. by rewrite Hkeys.
  - unfold filterByKey. rewrite filterWithKey_filter by done. clear.
    induction d as [|[k v] d IH]; [done|].
    cbn [fmap list_fmap fst]. rewrite !filter_cons. simpl. unfold set_mem.
    destruct (decide (k ∈ ks)) as [Hin|Hout].
    + rewrite decide_True by by apply bool_decide_pack.
      cbn [fmap list_fmap fst]. f_equal. apply IH.
    + rewrite decide_False; [apply IH|].
      intros Hb. by apply bool_decide_unpack in Hb.
Qed.

(** Extra X7.  [lookup(k, d)] is [Some v] exactly when [d] stores [k]
    with the value [v] and [v] is not [None]; it is [Nothing] exactly
    when [k] is missing or stored with [None]; it never is [Some None]. *)
Theorem lookup_spec d k :
  (∀ v, lookup k d = Maybe.Some v ↔ dict_get d k = Some v ∧ v ≠ VNone)
  ∧ (lookup k d = Maybe.Nothing ↔ ¬ holds d k)
  ∧ lookup k d ≠ Maybe.Some VNone.
Proof.
  assert (Hsome : ∀ v, lookup k d = Maybe.Some v ↔ dict_get d k = Some v ∧ v ≠ VNone).
  { intros v. unfold lookup, dict_get_default. split.
    - destruct (dict_get d k) as [[| | |]|]; cbn; try done;
        intros [= <-]; done.
    - intros [-> Hv]. by destruct v. }
  split_and!.
  - done.
  - split.
    + intros Hn (v & Hg & Hv).
      assert (lookup k d = Maybe.Some v) as Hs by by apply Hsome.
      by rewrite Hn in Hs.
    + apply lookup_not_holds.
  - intros Hs. apply Hsome in Hs as [_ Hv]. done.
Qed.

(** Extra X8.  After [insert(k, v, d)], [lookup(k, ...)] gives [v], or
    [Nothing] when [v] is [None]; after [delete(k, d)] it gives
    [Nothing]; at any other key neither changes what [lookup] gives. *)
Theorem lookup_insert_delete d k k' (v : value K) :
  uniq_keys d →
  lookup k (insert k v d) = Maybe_of v
  ∧ lookup k (delete k d) = Maybe.Nothing
  ∧ (k' ≠ k → lookup k' (insert k v d) = lookup k' d
              ∧ lookup k' (delete k d) = lookup k' d).
Proof.
  intros Hnd. unfold lookup, dict_get_default.
  rewrite insert_set, delete_filter by done. split_and!.
  - rewrite dict_get_set. by rewrite decide_True.
  - rewrite dict_get_filter by done. destruct (dict_get d k); [|done].
    rewrite decide_False; [done|]. simpl. tauto.
  - intros Hne. split.
    + rewrite dict_get_set. by rewrite decide_False.
    + rewrite dict_get_filter by done. destruct (dict_get d k'); [|done].
      by rewrite decide_True.
Qed.

End more_getByKeys_facts.

(** ** append, further *)

Section more_append_facts.
Context {K : Type} `{EqDecision K}.
Implicit Types (d : list (K * value K)) (k : K).

Lemma wf_VDict d :
  wf_value (VDict d) ↔ uniq_keys d ∧ ∀ kv, kv ∈ d → wf_value kv.2.
Proof.
  cbn [wf_value]. unfold uniq_keys. apply and_iff_compat_l.
  induction d as [|[k v] d IH].
  - split; [intros _ kv Hin; by apply elem_of_nil in Hin | done].
  - rewrite IH. split.
    + intros [Hv Hd] kv Hin. apply elem_of_cons in Hin as [->|Hin]; auto.
    + intros Hall. split.
      * apply (Hall (k, v)), list_elem_of_here.
      * intros kv Hin. by apply Hall, list_elem_of_further.
Qed.

Lemma both_dicts_nil_sub d1 d2 its :
  uniq_keys d1 →
  (∀ k v1 v2, dict_get d1 k = Some v1 → dict_get d2 k = Some v2 →
              is_dict v1 && is_dict v2 = false) →
  (∀ kv, kv ∈ its → kv ∈ d1) →
  both_dicts its d2 = [].
Proof.
  intros Hnd Hflat.
  induction its as [|[k v] its IH]; intros Hsub; [done|].
  cbn [both_dicts].
  assert (Htl : ∀ kv, kv ∈ its → kv ∈ d1).
  { intros kv Hin. by apply Hsub, list_elem_of_further. }
  destruct v as [| | |v1]; try by apply IH.
  destruct (dict_get d2 k) as [[| | |v2]|] eqn:Hg; try by apply IH.
  assert (Hg1 : dict_get d1 k = Some (VDict v1)).
  { apply dict_get_elem_uniq; [done|]. apply Hsub, list_elem_of_here. }
  by specialize (Hflat _ _ _ Hg1 Hg).
Qed.

Lemma both_dicts_nil d1 d2 :
  uniq_keys d1 →
  (∀ k v1 v2, dict_get d1 k = Some v1 → dict_get d2 k = Some v2 →
              is_dict v1 && is_dict v2 = false) →
  both_dicts d1 d2 = [].
Proof. intros Hnd Hflat. by apply (both_dicts_nil_sub d1 d2 d1). Qed.

Lemma append_merge d1 d2 :
  uniq_keys d1 →
  (∀ k v1 v2, dict_get d1 k = Some v1 → dict_get d2 k = Some v2 →
              is_dict v1 && is_dict v2 = false) →
  append d1 d2 = merge d1 d2.
Proof.
  intros Hnd Hflat. rewrite append_unfold, both_dicts_nil by done. done.
Qed.

(** Extra X9.  Where no key has a dict on both sides, [append] is the
    one-level [merge]. *)
Theorem append_flat d1 d2 :
  uniq_keys d1 →
  (∀ k v1 v2, dict_get d1 k = Some v1 → dict_get d2 k = Some v2 →
              is_dict v1 && is_dict v2 = false) →
  append d1 d2 = merge d1 d2.
Proof. apply append_merge. Qed.

Lemma both_dicts_self_sub d its :
  uniq_keys d →
  (∀ k v1, (k, VDict v1) ∈ d → append v1 v1 = v1) →
  (∀ kv, kv ∈ its → kv ∈ d) →
  ∀ kv, kv ∈ both_dicts its d → kv ∈ d.
Proof.
  intros Hnd Hrec.
  induction its as [|[k v] its IH]; intros Hsub kv Hin.
  - by apply elem_of_nil in Hin.
  - assert (Htl : ∀ kv, kv ∈ its → kv ∈ d).
    { intros kv' Hin'. by apply Hsub, list_elem_of_further. }
    cbn [both_dicts] in Hin.
    destruct v as [| | |v1]; try by apply (IH Htl).
    assert (Hhd : (k, VDict v1) ∈ d) by apply Hsub, list_elem_of_here.
    rewrite (dict_get_elem_uniq d k (VDict v1) Hnd Hhd) in Hin.
    apply elem_of_cons in Hin as [->|Hin]; [|by apply (IH Htl)].
    by rewrite (Hrec k v1 Hhd).
Qed.

Lemma both_dicts_self d :
  uniq_keys d →
  (∀ k v1, (k, VDict v1) ∈ d → append v1 v1 = v1) →
  ∀ kv, kv ∈ both_dicts d d → kv ∈ d.
Proof. intros Hnd Hrec. by apply both_dicts_self_sub. Qed.

Lemma append_self_bounded (n : nat) d :
  deepest d ≤ n → wf_value (VDict d) → append d d = d.
Proof.
  revert d. induction n as [|n IH]; intros d Hle Hwf;
    apply wf_VDict in Hwf as [Hnd Hall].
  - rewrite append_unfold.
    rewrite (dict_update_app_uniq [] d) by done. cbn [app].
    rewrite (dict_update_sub d d) by done.
    rewrite dict_of_items_uniq by by apply both_dicts_uniq.
    apply dict_update_sub; [done|]. apply both_dicts_self; [done|].
    intros k v1 Hin. apply deepest_elem in Hin. rewrite nesting_VDict in Hin. lia.
  - rewrite append_unfold.
    rewrite (dict_update_app_uniq [] d) by done. cbn [app].
    rewrite (dict_update_sub d d) by done.
    rewrite dict_of_items_uniq by by apply both_dicts_uniq.
    apply dict_update_sub; [done|]. apply both_dicts_self; [done|].
    intros k v1 Hin. apply IH.
    + apply deepest_elem in Hin. rewrite nesting_VDict in Hin. lia.
    + apply (Hall _ Hin).
Qed.

(** Extra X10.  The empty dict is a unit of [append] on both sides, and
    [append] of a dict with itself gives it back. *)
Theorem append_unit_idempotent d :
  wf_value (VDict d) →
  append d [] = d ∧ append [] d = d ∧ append d d = d.
Proof.
  intros Hwf. pose proof (proj1 (wf_VDict d) Hwf) as [Hnd _]. split_and!.
  - rewrite append_merge; [|done|done]. by rewrite merge_update.
  - rewrite append_unfold. cbn [both_dicts dict_of_items dict_update fold_left].
    by apply dict_of_items_uniq.
  - by apply (append_self_bounded (deepest d)).
Qed.

End more_append_facts.

(** ** append: what it keeps *)

Section append_invariants.
Context {K : Type} `{EqDecision K}.
Implicit Types (d e : list (K * value K)) (k : K) (P : value K → Prop).

(** A property of all values of a dict survives [d[k] = v] and
    [{**d, **e}] when the stored values have it. *)
Lemma values_set P d k (v : value K) :
  (∀ kv, kv ∈ d → P kv.2) → P v → ∀ kv, kv ∈ dict_set d k v → P kv.2.
Proof.
  intros Hd Hv. induction d as [|[k0 v0] d IH]; intros kv Hin; cbn [dict_set] in Hin.
  - apply list_elem_of_singleton in Hin as ->. done.
  - assert (Htl : ∀ kv, kv ∈ d → P kv.2).
    { intros kv' Hin'. by apply Hd, list_elem_of_further. }
    destruct (decide (k0 = k)) as [->|Hne];
      apply elem_of_cons in Hin as [->|Hin]; auto.
    apply (Hd (k0, v0)), list_elem_of_here.
Qed.

Lemma values_update P d e :
  (∀ kv, kv ∈ d → P kv.2) → (∀ kv, kv ∈ e → P kv.2) →
  ∀ kv, kv ∈ dict_update d e → P kv.2.
Proof.
  unfold dict_update. revert d.
  induction e as [|[k v] e IH]; intros d Hd He; [done|].
  cbn [fold_left fst snd]. apply IH.
  - apply values_set; [done|]. apply (He (k, v)), list_elem_of_here.
  - intros kv Hin. by apply He, list_elem_of_further.
Qed.

Lemma values_nil P : ∀ kv : K * value K, kv ∈ [] → P kv.2.
Proof. intros kv Hin. by apply elem_of_nil in Hin. Qed.

Lemma values_both P d1 d2 :
  (∀ k v1 v2, (k, VDict v1) ∈ d1 → (k, VDict v2) ∈ d2 →
              P (VDict (append v1 v2))) →
  ∀ kv, kv ∈ both_dicts d1 d2 → P kv.2.
Proof.
  induction d1 as [|[k v] d1 IH]; intros Hrec kv Hin.
  - by apply elem_of_nil in Hin.
  - assert (Htl : ∀ kv, kv ∈ both_dicts d1 d2 → P kv.2).
    { apply IH. intros k' v1 v2 Hin1. by apply Hrec, list_elem_of_further. }
    cbn [both_dicts] in Hin.
    destruct v as [| | |v1]; try by apply Htl.
    destruct (dict_get d2 k) as [[| | |v2]|] eqn:Hg; try by apply Htl.
    apply elem_of_cons in Hin as [->|Hin]; [|by apply Htl].
    apply (Hrec k); [apply list_elem_of_here | by apply dict_get_Some_elem].
Qed.

(** The values of [append(d1, d2)] have a property that the values of
    both operands and the merged sub-dicts have. *)
Lemma values_append P d1 d2 :
  (∀ kv, kv ∈ d1 → P kv.2) → (∀ kv, kv ∈ d2 → P kv.2) →
  (∀ k v1 v2, (k, VDict v1) ∈ d1 → (k, VDict v2) ∈ d2 →
              P (VDict (append v1 v2))) →
  ∀ kv, kv ∈ append d1 d2 → P kv.2.
Proof.
  intros H1 H2 Hrec. rewrite append_unfold.
  repeat apply values_update; try done; try apply values_nil.
  by apply values_both.
Qed.

Lemma deepest_le d (b : nat) : deepest d ≤ b ↔ ∀ kv, kv ∈ d → nesting kv.2 ≤ b.
Proof.
  induction d as [|[k v] d IH]; cbn [deepest].
  - split; [intros _ kv Hin; by apply elem_of_nil in Hin | lia].
  - split.
    + intros Hle kv Hin. apply elem_of_cons in Hin as [->|Hin]; [simpl; lia|].
      apply IH; [lia | done].
    + intros Hall. pose proof (Hall (k, v) (list_elem_of_here _ _)) as Hv.
      simpl in Hv. apply Nat.max_lub; [done|]. apply IH.
      intros kv Hin. by apply Hall, list_elem_of_further.
Qed.

Lemma append_deepest_bounded (n : nat) d1 d2 :
  deepest d1 ≤ n →
  deepest (append d1 d2) ≤ Nat.max (deepest d1) (deepest d2).
Proof.
  revert d1 d2. induction n as [|n IH]; intros d1 d2 Hle;
    apply deepest_le;
    apply (values_append (λ v, nesting v ≤ Nat.max (deepest d1) (deepest d2))).
  - intros kv Hin. apply (proj1 (deepest_le d1 (deepest d1))) in Hin; lia.
  - intros kv Hin. apply (proj1 (deepest_le d2 (deepest d2))) in Hin; lia.
  - intros k v1 v2 Hin1 _. apply deepest_elem in Hin1.
    rewrite nesting_VDict in Hin1. lia.
  - intros kv Hin. apply (proj1 (deepest_le d1 (deepest d1))) in Hin; lia.
  - intros kv Hin. apply (proj1 (deepest_le d2 (deepest d2))) in Hin; lia.
  - intros k v1 v2 Hin1 Hin2. apply deepest_elem in Hin1, Hin2.
    rewrite nesting_VDict in *.
    assert (deepest v1 ≤ n) as Hv1 by lia. specialize (IH v1 v2 Hv1). lia.
Qed.

(** Extra X11.  [append] never deepens: the nesting of the result is at
    most that of the deeper operand. *)
Theorem append_nesting d1 d2 :
  nesting (VDict (append d1 d2))
  ≤ Nat.max (nesting (VDict d1)) (nesting (VDict d2)).
Proof.
  rewrite !nesting_VDict.
  pose proof (append_deepest_bounded (deepest d1) d1 d2 (le_n _)). lia.
Qed.

Lemma filter_none {A} (Q : A → Prop) `{∀ x, Decision (Q x)} (l : list A) :
  (∀ x, x ∈ l → ¬ Q x) → filter Q l = [].
Proof.
  induction l as [|x l IH]; intros Hall; [done|].
  rewrite filter_cons_False by apply Hall, list_elem_of_here.
  apply IH. intros y Hy. by apply Hall, list_elem_of_further.
Qed.

(** Extra X12.  The keys of [append(d1, d2)] are the keys of [d1] in
    their order followed by the new keys of [d2] in theirs. *)
Theorem append_keys d1 d2 :
  uniq_keys d1 → uniq_keys d2 →
  (append d1 d2).*1 = d1.*1 ++ filter (λ k, k ∉ d1.*1) d2.*1.
Proof.
  intros Hnd1 Hnd2. rewrite append_unfold.
  rewrite (dict_of_items_uniq (both_dicts d1 d2)) by by apply both_dicts_uniq.
  rewrite dict_update_keys by by apply both_dicts_uniq.
  rewrite (dict_update_app_uniq [] d1) by done. cbn [app].
  rewrite (filter_none (λ k, k ∉ (dict_update d1 d2).*1)).
  - rewrite app_nil_r. by apply dict_update_keys.
  - intros k Hin Hout. apply Hout. rewrite dict_update_keys by done.
    apply elem_of_app. left. by apply (both_dicts_keys d1 d2).
Qed.

Lemma append_wf_bounded (n : nat) d1 d2 :
  deepest d1 ≤ n → wf_value (VDict d1) → wf_value (VDict d2) →
  wf_value (VDict (append d1 d2)).
Proof.
  revert d1 d2. induction n as [|n IH]; intros d1 d2 Hle Hwf1 Hwf2;
    apply wf_VDict in Hwf1 as [Hnd1 Hall1];
    apply wf_VDict in Hwf2 as [Hnd2 Hall2];
    apply wf_VDict; (split; [apply append_uniq|]);
    apply values_append; try done.
  - intros k v1 v2 Hin1 _. apply deepest_elem in Hin1.
    rewrite nesting_VDict in Hin1. lia.
  - intros k v1 v2 Hin1 Hin2. apply IH.
    + apply deepest_elem in Hin1. rewrite nesting_VDict in Hin1. lia.
    + apply (Hall1 _ Hin1).
    + apply (Hall2 _ Hin2).
Qed.

(** Extra X13.  [append] keeps the dict invariant at every depth: when no
    dict inside either operand has a key twice, none inside the result
    has. *)
Theorem append_wf d1 d2 :
  wf_value (VDict d1) → wf_value (VDict d2) → wf_value (VDict (append d1 d2)).
Proof. apply (append_wf_bounded (deepest d1)). done. Qed.

End append_invariants.

(** ** unflatten, further *)

Lemma append_fresh (acc : list (string * value string)) (k : string)
    (v : value string) :
  uniq_keys acc → k ∉ acc.*1 → append acc [(k, v)] = acc ++ [(k, v)].
Proof.
  intros Hnd Hout. rewrite append_merge; [|done|].
  - rewrite merge_update by done. cbn [dict_update fold_left fst snd].
    by apply dict_set_keys_notin.
  - intros k0 v1 v2 Hg1 Hg2. cbn [dict_get] in Hg2.
    destruct (decide (k = k0)) as [->|]; [|done].
    apply dict_get_None in Hout. congruence.
Qed.

Lemma contribution_plain (sep k : string) (v : value string) :
  contains sep k = false → contribution sep k v = [(k, v)].
Proof. intros Hc. unfold contribution. by rewrite Hc. Qed.

(** Extra X15.  On a dict none of whose keys contains the separator,
    [unflatten] returns the dict as it is, order included. *)
Theorem unflatten_no_separator (d : list (string * value string)) (sep : string) :
  sep ≠ "" → uniq_keys d → (∀ k, k ∈ d.*1 → contains sep k = false) →
  unflatten d sep = Ok d.
Proof.
  intros Hsep Hnd Hplain. unfold unflatten. rewrite unflatten_fold by done.
  f_equal. change d with ([] ++ d) at 2. change d with ([] ++ d) in Hnd.
  revert Hnd Hplain. generalize (@nil (string * value string)) as acc.
  induction d as [|[k v] d IH]; intros acc Hnd Hplain.
  - by rewrite app_nil_r.
  - cbn [foldl fst snd].
    rewrite contribution_plain by apply Hplain, list_elem_of_here.
    unfold uniq_keys in Hnd. rewrite fmap_app in Hnd.
    pose proof Hnd as Hnd'. apply NoDup_app in Hnd' as (Hacc & Hdis & _).
    rewrite append_fresh; [|done|].
    + rewrite (cons_middle _ acc d), (assoc_L (++)). apply IH.
      * unfold uniq_keys. by rewrite <- (assoc_L (++)), fmap_app.
      * intros k' Hin. by apply Hplain, list_elem_of_further.
    + intros Hin. apply (Hdis _ Hin), list_elem_of_here.
Qed.

Lemma get_path_singleton (h : string) (t : list string) (v : value string) :
  get_path (h :: t) (VDict (path_singleton h t v)) = Some v.
Proof.
  revert h. induction t as [|h' t IH]; intros h;
    cbn [get_path path_singleton dict_get]; rewrite decide_True by done.
  - done.
  - apply IH.
Qed.

Lemma nesting_singleton (h : string) (t : list string) (v : value string) :
  nesting (VDict (path_singleton h t v)) = S (length t) + nesting v.
Proof.
  revert h. induction t as [|h' t IH]; intros h.
  - cbn [path_singleton]. rewrite nesting_VDict. cbn [deepest length]. lia.
  - cbn [path_singleton]. rewrite nesting_VDict. cbn [deepest length].
    rewrite IH. lia.
Qed.

(** Extra X16.  [unflatten1] raises [ValueError] on the empty list of
    parts; on any other list it returns a dict with one item in which
    following the parts leads to the value, nested as deep as there are
    parts. *)
Theorem unflatten1_path (parts : list string) (v : value string) :
  unflatten1 [] v = Raise ValueError
  ∧ (parts ≠ [] →
     ∃ d, unflatten1 parts v = Ok d ∧ length d = 1
          ∧ get_path parts (VDict d) = Some v
          ∧ nesting (VDict d) = length parts + nesting v).
Proof.
  split; [done|]. intros Hne. destruct parts as [|h t]; [done|].
  exists (path_singleton h t v). split_and!.
  - apply unflatten1_cons.
  - by destruct t.
  - apply get_path_singleton.
  - apply nesting_singleton.
Qed.

Lemma both_dicts_with_error {K} `{EqDecision K}
    (rec : list (K * value K) → list (K * value K) → result (list (K * value K)))
    (d1 d2 : list (K * value K)) (e : pyexn) :
  (∀ v1 v2 e', rec v1 v2 = Raise e' → e' = RecursionError) →
  both_dicts_with rec d1 d2 = Raise e → e = RecursionError.
Proof.
  intros Hrec. induction d1 as [|[k v] d1 IH]; [done|].
  cbn [both_dicts_with].
  destruct v as [| | |v1]; try apply IH.
  destruct (dict_get d2 k) as [[| | |v2]|]; try apply IH.
  destruct (rec v1 v2) as [r|e'] eqn:Hr; cbv [mbind result_bind].
  - destruct (both_dicts_with rec d1 d2) as [rest|e'']; [done|].
    intros [= <-]. by apply IH.
  - intros [= <-]. by apply (Hrec v1 v2).
Qed.

Lemma append_frames_error {K} `{EqDecision K} (frames : nat)
    (d1 d2 : list (K * value K)) (e : pyexn) :
  append_frames frames d1 d2 = Raise e → e = RecursionError.
Proof.
  revert d1 d2 e. induction frames as [|n IH]; intros d1 d2 e.
  - by intros [= <-].
  - cbn [append_frames].
    destruct (both_dicts_with (append_frames n) d1 d2) as [its|e'] eqn:Hb;
      cbv [mbind result_bind]; [done|].
    intros [= <-]. by apply (both_dicts_with_error _ _ _ _ IH Hb).
Qed.

Lemma append_frames_enough {K} `{EqDecision K} (frames : nat)
    (d1 d2 : list (K * value K)) :
  Nat.min (nesting (VDict d1)) (nesting (VDict d2)) ≤ frames →
  append_frames frames d1 d2 = Ok (append d1 d2).
Proof.
  revert d1 d2. induction frames as [|n IH]; intros d1 d2 Hle.
  - rewrite !nesting_VDict in Hle. lia.
  - rewrite !nesting_VDict in Hle. cbn [append_frames].
    rewrite (both_dicts_with_enough _ n) by (done || lia).
    rewrite append_unfold. reflexivity.
Qed.

Lemma split_max_cons (n : nat) (s sep : string) :
  ∃ h t, split_max n s sep = h :: t.
Proof.
  destruct n; cbn [split_max]; [by eexists _, _|].
  destruct (partition sep s) as [[b a]|]; by eexists _, _.
Qed.

Lemma unflatten1_frames_error (frames : nat) (parts : list string)
    (v : value string) (e : pyexn) :
  parts ≠ [] → unflatten1_frames frames parts v = Raise e → e = RecursionError.
Proof.
  revert parts. induction frames as [|n IH]; intros parts Hne.
  - by intros [= <-].
  - destruct parts as [|h t]; [done|]. cbn [unflatten1_frames].
    destruct (decide (length t = 0)) as [|Hl]; [done|].
    destruct (unflatten1_frames n t v) as [inner|e'] eqn:Hi;
      cbv [mbind result_bind]; [done|].
    intros [= <-]. apply (IH t); [|done]. by destruct t.
Qed.

Lemma unflatten1_frames_enough (frames : nat) (parts : list string)
    (v : value string) :
  parts ≠ [] → length parts ≤ frames →
  unflatten1_frames frames parts v = unflatten1 parts v.
Proof.
  revert parts. induction frames as [|n IH]; intros parts Hne Hle.
  - destruct parts; [done | cbn in Hle; lia].
  - destruct parts as [|h t]; [done|]. cbn [unflatten1_frames unflatten1].
    destruct (decide (length t = 0)) as [|Hl]; [done|].
    rewrite IH; [done | by destruct t | cbn in Hle; lia].
Qed.

Lemma unflatten_frames_step_Raise (frames : nat) (sep : string) (e : pyexn)
    (d : list (string * value string)) :
  foldl (λ acc kv,
           a ← acc;
           parts ← split kv.1 sep;
           one ← unflatten1_frames frames parts kv.2;
           append_frames frames a one)
        (Raise e) d
  = Raise e.
Proof. induction d as [|kv d IH]; [done | apply IH]. Qed.

Lemma unflatten_frames_error (frames : nat) (sep : string)
    (d : list (string * value string)) (acc : result (list (string * value string)))
    (e : pyexn) :
  sep ≠ "" →
  (∀ e', acc = Raise e' → e' = RecursionError) →
  foldl (λ acc kv,
           a ← acc;
           parts ← split kv.1 sep;
           one ← unflatten1_frames frames parts kv.2;
           append_frames frames a one)
        acc d
  = Raise e → e = RecursionError.
Proof.
  intros Hsep. revert acc. induction d as [|[k v] d IH]; intros acc Hacc.
  - apply Hacc.
  - cbn [foldl fst snd]. apply IH. intros e'.
    destruct acc as [a|e0]; cbv [mbind result_bind]; [|apply Hacc].
    unfold split. rewrite decide_False by done.
    destruct (split_max_cons (String.length k) k sep) as (h & t & ->).
    destruct (unflatten1_frames frames (h :: t) v) as [one|e1] eqn:H1.
    + apply append_frames_error.
    + intros [= <-]. by apply (unflatten1_frames_error frames (h :: t) v).
Qed.

Lemma unflatten_frames_enough (frames : nat) (sep : string)
    (d acc : list (string * value string)) :
  sep ≠ "" →
  (∀ kv, kv ∈ d →
         length (split_max (String.length kv.1) kv.1 sep) + nesting kv.2 ≤ frames) →
  foldl (λ acc kv,
           a ← acc;
           parts ← split kv.1 sep;
           one ← unflatten1_frames frames parts kv.2;
           append_frames frames a one)
        (Ok acc) d
  = foldl (λ acc kv,
             a ← acc;
             parts ← split kv.1 sep;
             one ← unflatten1 parts kv.2;
             Ok (append a one))
          (Ok acc) d.
Proof.
  intros Hsep. revert acc. induction d as [|[k v] d IH]; intros acc Hroom; [done|].
  cbn [foldl fst snd].
  pose proof (Hroom (k, v) (list_elem_of_here _ _)) as Hk. cbn [fst snd] in Hk.
  assert (Htl : ∀ kv, kv ∈ d →
            length (split_max (String.length kv.1) kv.1 sep) + nesting kv.2 ≤ frames).
  { intros kv Hin. by apply Hroom, list_elem_of_further. }
  unfold split. rewrite decide_False by done. cbv [mbind result_bind].
  destruct (split_max_cons (String.length k) k sep) as (h & t & Hs).
  rewrite Hs in Hk |- *.
  rewrite unflatten1_frames_enough by (done || lia).
  rewrite unflatten1_cons.
  rewrite append_frames_enough.
  - by apply IH.
  - rewrite nesting_singleton. cbn [length] in Hk. lia.
Qed.

(** Extra X14.  With the empty separator [unflatten] raises [ValueError]
    on every dict that is not empty.  With any other separator it never
    raises [ValueError] (the unpacking [h, *t = parts] never fails): the
    one failure left is [RecursionError], from the nested calls of
    [unflatten1], one per segment, and of [append]; when the call stack
    has room, for every item, for as many nested calls as its key has
    segments plus its value has levels, [unflatten] returns a dict.  The
    empty dict gives the empty dict for every separator. *)
Theorem unflatten_raises (d : list (string * value string)) (sep : string)
    (frames : nat) :
  (sep = "" → d ≠ [] → unflatten_frames frames d sep = Raise ValueError)
  ∧ (sep ≠ "" →
     ∀ e, unflatten_frames frames d sep = Raise e → e = RecursionError)
  ∧ (sep ≠ "" →
     (∀ kv, kv ∈ d →
            length (split_max (String.length kv.1) kv.1 sep) + nesting kv.2
            ≤ frames) →
     ∃ r, unflatten_frames frames d sep = Ok r ∧ unflatten d sep = Ok r)
  ∧ unflatten_frames frames [] sep = Ok [].
Proof.
  split_and!.
  - intros -> Hd. destruct d as [|[k v] d]; [done|].
    unfold unflatten_frames. cbn [foldl]. apply unflatten_frames_step_Raise.
  - intros Hsep e. apply unflatten_frames_error; done.
  - intros Hsep Hroom. eexists. unfold unflatten_frames, unflatten.
    rewrite unflatten_frames_enough by done. split; by apply unflatten_fold.
  - reflexivity.
Qed.

Lemma wf_one (k : string) (v : value string) :
  wf_value v → wf_value (VDict [(k, v)]).
Proof.
  intros Hv. apply wf_VDict. split.
  - unfold uniq_keys. cbn [fmap list_fmap fst]. apply NoDup_singleton.
  - intros kv Hin. apply list_elem_of_singleton in Hin as ->. done.
Qed.

Lemma wf_singleton (h : string) (t : list string) (v : value string) :
  wf_value v → wf_value (VDict (path_singleton h t v)).
Proof.
  intros Hv. revert h. induction t as [|h' t IH]; intros h;
    cbn [path_singleton]; apply wf_one; [done | apply IH].
Qed.

(** The contribution of an item is the nested singleton along the
    segments of its key, whether or not the key contains the separator. *)
Lemma contribution_path (sep k : string) (v : value string) :
  ∃ h t, split_max (String.length k) k sep = h :: t
         ∧ contribution sep k v = path_singleton h t v.
Proof.
  unfold contribution. destruct (contains sep k) eqn:Hc.
  - destruct (split_max (String.length k) k sep) as [|h t] eqn:Hs.
    + by destruct (String.length k); cbn in Hs; [|destruct (partition sep k) as [[]|]].
    + by exists h, t.
  - exists k, []. split; [|done]. apply partition_contains in Hc.
    destruct (String.length k); [done|]. cbn [split_max]. by rewrite Hc.
Qed.

Lemma unflattenKeys_wf (sep : string) (d acc : list (string * value string)) :
  wf_value (VDict acc) → (∀ kv, kv ∈ d → wf_value kv.2) →
  wf_value (VDict (foldl (λ acc kv, append acc (contribution sep kv.1 kv.2)) acc d)).
Proof.
  revert acc. induction d as [|[k v] d IH]; intros acc Hacc Hd; [done|].
  cbn [foldl fst snd]. apply IH.
  - apply (append_wf_bounded (deepest acc)); [done | done |].
    destruct (contribution_path sep k v) as (h & t & _ & ->).
    apply wf_singleton, (Hd (k, v)), list_elem_of_here.
  - intros kv Hin. by apply Hd, list_elem_of_further.
Qed.

Lemma get_path_append_singleton (acc : list (string * value string))
    (h : string) (t : list string) (v : value string) :
  wf_value (VDict acc) → is_dict v = false →
  get_path (h :: t) (VDict (append acc (path_singleton h t v))) = Some v.
Proof.
  intros Hwf Hv. revert h acc Hwf. induction t as [|h' t IH]; intros h acc Hwf;
    apply wf_VDict in Hwf as [Hnd Hall]; cbn [path_singleton get_path].
  - rewrite append_get; [|done|apply NoDup_singleton].
    cbn [dict_get]. rewrite decide_True by done.
    by destruct (dict_get acc h) as [[| | |]|], v.
  - rewrite append_get; [|done|apply NoDup_singleton].
    cbn [dict_get]. rewrite decide_True by done.
    destruct (dict_get acc h) as [[| | |sub]|] eqn:Hg;
      try apply get_path_singleton.
    apply IH. apply dict_get_Some_elem in Hg. apply (Hall _ Hg).
Qed.

(** Extra X17.  The item processed last wins: when its value is not a
    dict, following the segments of its key in the result of [unflatten]
    leads to that value, whatever the earlier items put there. *)
Theorem unflatten_last_wins (d : list (string * value string)) (k : string)
    (v : value string) (sep : string) (r : list (string * value string)) :
  sep ≠ "" → (∀ kv, kv ∈ d → wf_value kv.2) → is_dict v = false →
  unflatten (d ++ [(k, v)]) sep = Ok r →
  get_path (split_max (String.length k) k sep) (VDict r) = Some v.
Proof.
  intros Hsep Hd Hv. unfold unflatten. rewrite unflatten_fold by done.
  rewrite foldl_app. cbn [foldl fst snd]. intros [= <-].
  destruct (contribution_path sep k v) as (h & t & -> & ->).
  apply get_path_append_singleton; [|done].
  apply unflattenKeys_wf; [|done]. apply wf_VDict. split.
  - apply NoDup_nil_2.
  - intros kv Hin. by apply elem_of_nil in Hin.
Qed.

Lemma dict_update_keys_elem {K V} `{EqDecision K} (d e : list (K * V)) (k : K) :
  k ∈ (dict_update d e).*1 ↔ k ∈ d.*1 ∨ k ∈ e.*1.
Proof.
  unfold dict_update. revert d.
  induction e as [|[k0 v0] e IH]; intros d; cbn [fold_left fmap list_fmap fst snd].
  - rewrite elem_of_nil. tauto.
  - rewrite IH, dict_set_keys, elem_of_cons.
    destruct (decide (k0 ∈ d.*1)) as [Hin|Hout].
    + split; [tauto|]. intros [?|[-> |?]]; tauto.
    + rewrite elem_of_app, list_elem_of_singleton. tauto.
Qed.

Lemma append_keys_elem {K} `{EqDecision K} (d1 d2 : list (K * value K)) (k : K) :
  k ∈ (append d1 d2).*1 ↔ k ∈ d1.*1 ∨ k ∈ d2.*1.
Proof.
  rewrite append_unfold. unfold dict_of_items. rewrite !dict_update_keys_elem.
  cbn [fmap list_fmap]. rewrite elem_of_nil.
  pose proof (both_dicts_keys d1 d2 k). tauto.
Qed.

(** Extra X18.  The top-level keys of the result of [unflatten] are
    exactly the first segments of the keys of the input, and none of them
    contains the separator. *)
Theorem unflatten_top_keys (d : list (string * value string)) (sep : string)
    (r : list (string * value string)) :
  sep ≠ "" → unflatten d sep = Ok r →
  ∀ k', k' ∈ r.*1 ↔
        ∃ k, k ∈ d.*1 ∧ head (split_max (String.length k) k sep) = Some k' ∧
             contains sep k' = false.
Proof.
  intros Hsep. unfold unflatten. rewrite unflatten_fold by done. intros [= <-] k'.
  assert (Hgen : ∀ acc,
    k' ∈ (foldl (λ acc kv, append acc (contribution sep kv.1 kv.2)) acc d).*1 ↔
    k' ∈ acc.*1 ∨
    ∃ k, k ∈ d.*1 ∧ head (split_max (String.length k) k sep) = Some k' ∧
         contains sep k' = false).
  { induction d as [|[k v] d IH]; intros acc.
    - cbn [foldl fmap list_fmap]. split; [tauto|].
      intros [?|(k & Hin & _)]; [done | by apply elem_of_nil in Hin].
    - cbn [foldl fst snd]. rewrite IH, append_keys_elem.
      destruct (contribution_path sep k v) as (h & t & Hs & ->).
      assert (Hone : ∀ x, x ∈ (path_singleton h t v).*1 ↔ x = h).
      { intros x. destruct t; cbn [path_singleton fmap list_fmap fst];
          apply list_elem_of_singleton. }
      assert (Hh : contains sep h = false).
      { pose proof (split_max_segments sep (String.length k) k Hsep (le_n _)) as Hseg.
        rewrite Hs in Hseg. by apply Forall_cons in Hseg as [? _]. }
      rewrite Hone. cbn [fmap list_fmap fst]. split.
      + intros [[?| ->]|(k0 & Hin & Hhd & Hc)].
        * by left.
        * right. exists k. rewrite Hs. split_and!; [apply list_elem_of_here | done | done].
        * right. exists k0. split_and!; [by apply list_elem_of_further | done | done].
      + intros [?|(k0 & Hin & Hhd & Hc)]; [by left; left|].
        apply elem_of_cons in Hin as [-> |Hin].
        * rewrite Hs in Hhd. injection Hhd as <-. left. by right.
        * right. by exists k0. }
  rewrite Hgen. cbn [fmap list_fmap]. rewrite elem_of_nil. tauto.
Qed.

(** ** The do-notation interpreter, further *)

Section more_do_facts.
Context {X M Ev E : Type} `{!Do.Container X M Ev E} (none : X).
Implicit Types (p q : Do.prog X M Ev E) (lg evs : list Ev) (val : X).

Lemma send_too_shallow p evs n q :
  Do.reaches p evs n q →
  ∀ depth val lg,
    depth ≤ n →
    Do.send none depth val (Do.World (Do.Unstarted p) lg) = Do.Overflow.
Proof.
  induction 1 as [p|ev p evs n q _ IH|m k x evs n q Hm _ IH];
    intros depth val lg Hle.
  - by replace depth with 0 by lia.
  - rewrite (send_effect none). by apply IH.
  - destruct depth as [|depth]; [done|].
    rewrite (send_yield none _ _ _ _ x) by done. apply IH. lia.
Qed.

(** Extra X19.  An exception of the program other than the two of the
    protocol is not caught: when the program, resumed with the payload of
    each container it yields, comes to a step that raises [e], the run
    raises [e], with the side effects of the steps before it performed. *)
Theorem do_other_exception {Args : Type} (f : Args → Do.prog X M Ev E)
    (args : Args) evs n (e : E) depth :
  Do.reaches (f args) evs n (Do.Raises e) → n < depth →
  Do.do none depth f args = Do.Raised (Do.Other e) (Do.World Do.Exhausted evs).
Proof.
  intros Hreach Hlt. rewrite (do_reaches none _ _ _ _ _ _ Hreach Hlt).
  destruct (depth - n) as [|d] eqn:Hd; [lia|]. reflexivity.
Qed.

(** Extra X20.  Each yield passed nests one more call of [send]: a run
    that passes [n] yields before it ends (by [mreturn], [return], a
    raise, or a container in the short-circuit state) uses up the call
    stack exactly when there is room for [n] calls or fewer. *)
Theorem do_stack_depth {Args : Type} (f : Args → Do.prog X M Ev E)
    (args : Args) evs n q depth :
  Do.reaches (f args) evs n q →
  ((∃ v, q = Do.MReturn v) ∨ (∃ r, q = Do.Return r) ∨ (∃ e, q = Do.Raises e)
   ∨ (∃ m k, q = Do.Yield m k ∧ Do.payload m = None)) →
  Do.do none depth f args = Do.Overflow ↔ depth ≤ n.
Proof.
  intros Hreach Hq. split.
  - intros Hov. destruct (decide (depth ≤ n)) as [|Hgt]; [done|].
    exfalso. assert (Hlt : n < depth) by lia.
    rewrite (do_reaches none _ _ _ _ _ _ Hreach Hlt) in Hov.
    destruct (depth - n) as [|d] eqn:Hd; [lia|].
    destruct Hq as [[v ->]|[[r ->]|[[e ->]|(m & k & -> & Hm)]]];
      cbn [Do.send Do.it_send Do.it Do.log Do.resume] in Hov;
      try discriminate Hov.
    rewrite Do.flatmap_payload, Hm in Hov. discriminate Hov.
  - intros Hle. unfold Do.do. by apply (send_too_shallow _ _ _ _ Hreach).
Qed.

(** Extra X21.  A yield of [M.unit(a)] hands [a] to the rest of the
    program and changes nothing else: the run is the run of the rest
    resumed with [a], one call of [send] deeper. *)
Theorem do_yield_unit {Args : Type} (k : Args → X → Do.prog X M Ev E)
    (args : Args) (a : X) depth :
  Do.do none (S depth) (λ args, Do.Yield (Do.unit a) (k args)) args
  = Do.do none depth (λ args, k args a) args.
Proof.
  unfold Do.do. apply (send_yield none). apply Do.payload_unit.
Qed.

End more_do_facts.

(** Extra X22.  Over both containers, the do-block
    [x = yield m; mreturn(x)] returns [m]: the payload of a container in
    the success state is wrapped again, and a container in the
    short-circuit state is returned as it is. *)
Theorem do_yield_mreturn {X L Ev E : Type} (none : X) (depth : nat) :
  (∀ m : Maybe.t X,
      ∃ w, Do.do (Ev:=Ev) (E:=E) none (S (S depth))
             (λ m, Do.Yield m (λ x, Do.MReturn x)) m
           = Do.Done (Do.Cont m) w ∧ Do.log w = [])
  ∧ (∀ m : Either.t L X,
      ∃ w, Do.do (Ev:=Ev) (E:=E) none (S (S depth))
             (λ m, Do.Yield m (λ x, Do.MReturn x)) m
           = Do.Done (Do.Cont m) w ∧ Do.log w = []).
Proof.
  split; intros [|]; eexists; split; reflexivity.
Qed.

(** ** The further properties at concrete inputs *)

Lemma merge_spec_witness :
  let d1 := [("a", 1%Z); ("b", 1%Z)] in
  let d2 := [("b", 2%Z); ("c", 2%Z)] in
  uniq_keys d1 ∧ uniq_keys d2
  ∧ (merge d1 d2).*1 = ["a"; "b"; "c"]
  ∧ dict_get (merge d1 d2) "b" = Some 2%Z
  ∧ dict_get (merge d1 d2) "a" = Some 1%Z.
Proof.
  set (d1 := [("a", 1%Z); ("b", 1%Z)]). set (d2 := [("b", 2%Z); ("c", 2%Z)]).
  assert (H1 : uniq_keys d1) by (by compute_done).
  assert (H2 : uniq_keys d2) by (by compute_done).
  destruct (merge_spec d1 d2 H1 H2) as (Hget & _ & Hkeys).
  split_and!; [done | done | | |].
  - rewrite Hkeys. reflexivity.
  - rewrite (Hget "b"). reflexivity.
  - rewrite (Hget "a"). reflexivity.
Defined.

Lemma merge_monoid_witness :
  let d1 := [("a", 1%Z); ("b", 1%Z)] in
  let d2 := [("b", 2%Z); ("c", 2%Z)] in
  let d3 := [("a", 3%Z); ("d", 3%Z)] in
  uniq_keys d1 ∧ uniq_keys d2 ∧ uniq_keys d3
  ∧ merge d1 [] = d1 ∧ merge [] d1 = d1 ∧ merge d1 d1 = d1
  ∧ dict_get (merge (merge d1 d2) d3) "a" = dict_get (merge d1 (merge d2 d3)) "a".
Proof.
  set (d1 := [("a", 1%Z); ("b", 1%Z)]). set (d2 := [("b", 2%Z); ("c", 2%Z)]).
  set (d3 := [("a", 3%Z); ("d", 3%Z)]).
  assert (H1 : uniq_keys d1) by (by compute_done).
  assert (H2 : uniq_keys d2) by (by compute_done).
  assert (H3 : uniq_keys d3) by (by compute_done).
  destruct (merge_monoid d1 d2 d3 H1 H2 H3) as (Hr & Hl & Hi & Hassoc).
  split_and!; [done | done | done | exact Hr | exact Hl | exact Hi | exact (Hassoc "a")].
Defined.

Lemma delete_insert_roundtrip_witness :
  let d := [("a", 1%Z); ("b", 2%Z)] in
  uniq_keys d ∧ ("c" ∉ d.*1)
  ∧ delete "c" (insert "c" 3%Z d) = d
  ∧ delete "a" (insert "a" 3%Z d) = [("b", 2%Z)].
Proof.
  set (d := [("a", 1%Z); ("b", 2%Z)]).
  assert (Hnd : uniq_keys d) by (by compute_done).
  assert (Hout : "c" ∉ d.*1) by (by compute_done).
  split_and!; [done | done | |].
  - destruct (delete_insert_roundtrip "c" 3%Z 0%Z d Hnd) as (_ & Hd & _).
    by apply Hd.
  - destruct (delete_insert_roundtrip "a" 3%Z 0%Z d Hnd) as (Hd & _).
    rewrite Hd. reflexivity.
Defined.

Lemma filterWithKey_compose_witness :
  let d := [("a", 1%Z); ("b", 2%Z); ("c", 3%Z)] in
  uniq_keys d
  ∧ filterWithKey (λ _ v, bool_decide (v < 3)%Z)
      (filterWithKey (λ _ v, bool_decide (1 < v)%Z) d)
    = [("b", 2%Z)].
Proof.
  set (d := [("a", 1%Z); ("b", 2%Z); ("c", 3%Z)]).
  assert (Hnd : uniq_keys d) by (by compute_done).
  split; [done|].
  destruct (filterWithKey_compose (λ _ v, bool_decide (v < 3)%Z)
              (λ _ v, bool_decide (1 < v)%Z) d Hnd) as (Hc & _).
  rewrite Hc. reflexivity.
Defined.

Lemma getByKeys_Right_iff_witness :
  let d := [("a", VInt 1); ("b", VNone)] in
  "b" ∈ ["a"; "b"] ∧ ¬ holds d "b"
  ∧ ¬ ∃ sub, getByKeys ["a"; "b"] d = Either.Right sub.
Proof.
  set (d := [("a", VInt 1); ("b", VNone)]).
  assert (Hl : getByKeys ["a"; "b"] d = Either.Left "b") by reflexivity.
  destruct (getByKeys_Right_iff ["a"; "b"] d) as (Hiff & Hleft & _).
  destruct (Hleft "b" Hl) as [Hin Hb].
  split_and!; [exact Hin | exact Hb |].
  intros Hsub. apply Hiff in Hsub. apply Forall_cons in Hsub as [_ Hsub].
  apply Forall_cons in Hsub as [Hb' _]. by apply Hb.
Defined.

Lemma getByKeys_filterByKey_witness :
  let d := [("a", VInt 1); ("b", VInt 2); ("c", VInt 3)] in
  let sub := [("b", VInt 2); ("a", VInt 1)] in
  uniq_keys d ∧ NoDup ["b"; "a"]
  ∧ getByKeys ["b"; "a"] d = Either.Right sub
  ∧ dict_get sub "a" = dict_get (filterByKey ["b"; "a"] d) "a"
  ∧ (filterByKey ["b"; "a"] d).*1 = ["a"; "b"].
Proof.
  set (d := [("a", VInt 1); ("b", VInt 2); ("c", VInt 3)]).
  set (sub := [("b", VInt 2); ("a", VInt 1)]).
  assert (Hnd : uniq_keys d) by (by compute_done).
  assert (Hks : NoDup ["b"; "a"]) by (by compute_done).
  assert (Hr : getByKeys ["b"; "a"] d = Either.Right sub) by reflexivity.
  destruct (getByKeys_filterByKey ["b"; "a"] d sub Hnd Hks Hr) as (Hget & _ & Hkeys).
  split_and!; [done | done | done | exact (Hget "a") |].
  rewrite Hkeys. reflexivity.
Defined.

Lemma lookup_insert_delete_witness :
  let d := [("a", VInt 1); ("b", VInt 2)] in
  uniq_keys d
  ∧ lookup "a" (insert "a" VNone d) = Maybe.Nothing
  ∧ lookup "a" (insert "a" (VInt 5) d) = Maybe.Some (VInt 5)
  ∧ lookup "a" (delete "a" d) = Maybe.Nothing.
Proof.
  set (d := [("a", VInt 1); ("b", VInt 2)]).
  assert (Hnd : uniq_keys d) by (by compute_done).
  split_and!; [done | | |].
  - exact (proj1 (lookup_insert_delete d "a" "b" VNone Hnd)).
  - exact (proj1 (lookup_insert_delete d "a" "b" (VInt 5) Hnd)).
  - exact (proj1 (proj2 (lookup_insert_delete d "a" "b" VNone Hnd))).
Defined.

Lemma append_flat_witness :
  let d1 := [("a", VInt 1)] in
  let d2 := [("a", VDict [("x", VInt 1)]); ("b", VInt 2)] in
  uniq_keys d1
  ∧ append d1 d2 = merge d1 d2
  ∧ merge d1 d2 = d2.
Proof.
  set (d1 := [("a", VInt 1)]).
  set (d2 := [("a", VDict [("x", VInt 1)]); ("b", VInt 2)]).
  assert (Hnd : uniq_keys d1) by (by compute_done).
  split_and!; [done | | reflexivity].
  apply (append_flat d1 d2 Hnd). intros k v1 v2 Hg1 _. cbn in Hg1.
  destruct (decide ("a" = k)); [|done]. by injection Hg1 as <-.
Defined.

Lemma wf_example :
  wf_value (VDict [("a", VDict [("x", VInt 1)]); ("b", VInt 2)]).
Proof.
  cbn [wf_value fmap list_fmap fst]. split_and!; try done; by compute_done.
Qed.

Lemma append_unit_idempotent_witness :
  let d := [("a", VDict [("x", VInt 1)]); ("b", VInt 2)] in
  wf_value (VDict d) ∧ append d [] = d ∧ append [] d = d ∧ append d d = d.
Proof.
  split; [exact wf_example|].
  exact (append_unit_idempotent _ wf_example).
Defined.

Lemma append_keys_witness :
  let d1 := [("b", VInt 1); ("a", VDict [("x", VInt 1)])] in
  let d2 := [("c", VInt 2); ("a", VDict [("y", VInt 2)]); ("b", VInt 2)] in
  uniq_keys d1 ∧ uniq_keys d2 ∧ (append d1 d2).*1 = ["b"; "a"; "c"].
Proof.
  set (d1 := [("b", VInt 1); ("a", VDict [("x", VInt 1)])]).
  set (d2 := [("c", VInt 2); ("a", VDict [("y", VInt 2)]); ("b", VInt 2)]).
  assert (H1 : uniq_keys d1) by (by compute_done).
  assert (H2 : uniq_keys d2) by (by compute_done).
  split_and!; [done | done |].
  rewrite (append_keys d1 d2 H1 H2). reflexivity.
Defined.

Lemma append_wf_witness :
  let d := [("a", VDict [("x", VInt 1)]); ("b", VInt 2)] in
  wf_value (VDict d) ∧ wf_value (VDict (append d d)).
Proof.
  split; [exact wf_example|]. exact (append_wf _ _ wf_example wf_example).
Defined.

(** With room for one nested call only, the two segments of the key are
    one too many. *)
Example unflatten_frames_too_few :
  unflatten_frames 1 [("a.b", VInt 1)] "." = Raise RecursionError.
Proof. reflexivity. Qed.

Lemma unflatten_raises_witness :
  unflatten_frames 2 [("a.b", VInt 1)] "" = Raise ValueError
  ∧ unflatten_frames 2 [("a.b", VInt 1)] "." = Ok [("a", VDict [("b", VInt 1)])].
Proof.
  destruct (unflatten_raises [("a.b", VInt 1)] "" 2) as (Hraise & _).
  destruct (unflatten_raises [("a.b", VInt 1)] "." 2) as (_ & _ & Hok & _).
  split; [by apply Hraise|].
  destruct Hok as (r & Hr & Hu); [done | |].
  - intros kv Hin. apply list_elem_of_singleton in Hin as ->. vm_compute. lia.
  - rewrite Hr. rewrite <- Hu. reflexivity.
Defined.

Lemma unflatten_no_separator_witness :
  let d := [("a", VInt 1); ("b", VDict [("x.y", VInt 2)])] in
  "." ≠ "" ∧ uniq_keys d ∧ unflatten d "." = Ok d.
Proof.
  set (d := [("a", VInt 1); ("b", VDict [("x.y", VInt 2)])]).
  assert (Hsep : "." ≠ "") by done.
  assert (Hnd : uniq_keys d) by (by compute_done).
  split_and!; [done | done |].
  apply (unflatten_no_separator d "." Hsep Hnd). intros k Hin.
  cbn [fmap list_fmap fst d] in Hin.
  repeat (apply elem_of_cons in Hin as [-> |Hin]; [reflexivity|]).
  by apply elem_of_nil in Hin.
Defined.

Lemma unflatten1_path_witness :
  ∃ d, unflatten1 ["a"; "b"] (VInt 1) = Ok d
       ∧ get_path ["a"; "b"] (VDict d) = Some (VInt 1)
       ∧ nesting (VDict d) = 2.
Proof.
  destruct (proj2 (unflatten1_path ["a"; "b"] (VInt 1)))
    as (d & Hd & _ & Hpath & Hdepth); [done|].
  exists d. split_and!; [exact Hd | exact Hpath | exact Hdepth].
Defined.

Lemma unflatten_last_wins_witness :
  let d := [("a.b.c", VInt 1); ("a", VInt 2)] in
  let r := [("a", VDict [("b", VStr "new")])] in
  "." ≠ ""
  ∧ unflatten (d ++ [("a.b", VStr "new")]) "." = Ok r
  ∧ get_path ["a"; "b"] (VDict r) = Some (VStr "new").
Proof.
  set (d := [("a.b.c", VInt 1); ("a", VInt 2)]).
  set (r := [("a", VDict [("b", VStr "new")])]).
  assert (Hsep : "." ≠ "") by done.
  assert (Hr : unflatten (d ++ [("a.b", VStr "new")]) "." = Ok r) by reflexivity.
  split_and!; [done | done |].
  apply (unflatten_last_wins d "a.b" (VStr "new") "." r Hsep); [|done|done].
  intros kv Hin.
  repeat (apply elem_of_cons in Hin as [-> |Hin]; [exact I|]).
  by apply elem_of_nil in Hin.
Defined.

Lemma unflatten_top_keys_witness :
  let d := [("a.b", VInt 1); ("x", VInt 3)] in
  let r := [("a", VDict [("b", VInt 1)]); ("x", VInt 3)] in
  "." ≠ "" ∧ unflatten d "." = Ok r ∧ ("a.b" ∉ r.*1) ∧ contains "." "a" = false.
Proof.
  set (d := [("a.b", VInt 1); ("x", VInt 3)]).
  set (r := [("a", VDict [("b", VInt 1)]); ("x", VInt 3)]).
  assert (Hsep : "." ≠ "") by done.
  assert (Hr : unflatten d "." = Ok r) by reflexivity.
  pose proof (unflatten_top_keys d "." r Hsep Hr) as Hkeys.
  split_and!; [done | done | |].
  - intros Hin. apply Hkeys in Hin as (k & _ & _ & Hc). discriminate Hc.
  - assert (Hin : "a" ∈ r.*1) by apply list_elem_of_here.
    by apply Hkeys in Hin as (k & _ & _ & Hc).
Defined.

Lemma do_other_exception_witness :
  let f := λ _ : unit,
    (Do.Effect "first"
       (Do.Yield (Maybe.Some (VInt 1)) (λ _, Do.Raises ValueError)) : maybe_prog) in
  Do.reaches (f ()) ["first"] 1 (Do.Raises ValueError)
  ∧ Do.do VNone 2 f ()
    = Do.Raised (Do.Other ValueError) (Do.World Do.Exhausted ["first"]).
Proof.
  set (f := λ _ : unit,
    (Do.Effect "first"
       (Do.Yield (Maybe.Some (VInt 1)) (λ _, Do.Raises ValueError)) : maybe_prog)).
  assert (Hreach : Do.reaches (f ()) ["first"] 1 (Do.Raises ValueError)).
  { apply Do.reaches_effect, (Do.reaches_yield _ _ (VInt 1)); [reflexivity|].
    apply Do.reaches_here. }
  split; [exact Hreach|].
  apply (do_other_exception VNone f () _ 1 _ 2 Hreach). lia.
Defined.

Lemma do_stack_depth_witness :
  let args := (Maybe.Some (Some "Hello"), Maybe.Some (Some "World")) in
  Do.reaches (three_steps args) ["first"; "second"; "third"] 2
             (Do.MReturn (Some "Hello, World!"))
  ∧ Do.do None 2 three_steps args = Do.Overflow
  ∧ Do.do None 3 three_steps args ≠ Do.Overflow.
Proof.
  set (args := (Maybe.Some (Some "Hello"), Maybe.Some (Some "World"))).
  assert (Hreach : Do.reaches (three_steps args) ["first"; "second"; "third"] 2
                     (Do.MReturn (Some "Hello, World!"))).
  { apply Do.reaches_effect, (Do.reaches_yield _ _ (Some "Hello")); [reflexivity|].
    apply Do.reaches_effect, (Do.reaches_yield _ _ (Some "World")); [reflexivity|].
    apply Do.reaches_effect, Do.reaches_here. }
  assert (Hiff : ∀ depth,
            Do.do None depth three_steps args = Do.Overflow ↔ depth ≤ 2).
  { intros depth.
    apply (do_stack_depth None three_steps args _ 2 _ depth Hreach).
    left. by eexists. }
  split_and!; [exact Hreach | |].
  - apply Hiff. lia.
  - intros Hov. apply Hiff in Hov. lia.
Defined.
